(** * Category stores: the local (key/value) store and the remote (Firestore) store

    A shallow embedding of [category.service.ts] ([CategoryService]) and of
    the Firestore-backed service ([FirebaseCategoryService]), with the
    properties of their specification stated and proved over it.

    Conventions of the embedding.
    - A [Date] is its time value, an integer number of milliseconds ([Z]).
      The invalid date (time value NaN) is outside the model.
    - A method of a service is a computation [Eff B A]: a function from the
      world to a completion (normal return or thrown error) and a new world.
      An [async] method is modelled by the completion of its promise:
      [Returned] for a resolved promise, [Threw] for a rejected one.
    - Everything the services do to their surroundings is appended to the
      world's [trace]: diagnostics written with [console.error] and every
      call made to a backing store. *)

From stdpp Require Import gmap strings list pretty.

Open Scope Z_scope.

(** ** Data model (category.model.ts) *)

(** Modelled from the spec: the declarations of [category.model.ts]
    ([Category], [CreateCategoryDto], [UpdateCategoryDto], [CategoryStats],
    [CategoryWithCount]) are not among the sources; the records follow section 3
    of the specification and the fields the two services read and write. *)
Record Category := mkCategory {
  id : string;
  name : string;
  color : string;
  backgroundColor : string;
  icon : string;
  createdAt : Z;
  updatedAt : Z
}.

Record CreateCategoryDto := mkCreateDto {
  c_name : string;
  c_color : string;
  c_backgroundColor : string;
  c_icon : string
}.

(** Every field is optional: [None] is a field the DTO does not define. *)
Record UpdateCategoryDto := mkUpdateDto {
  u_name : option string;
  u_color : option string;
  u_backgroundColor : option string;
  u_icon : option string
}.

Record CategoryStats := mkStats {
  total : Z;
  withTasks : Z;
  empty : Z
}.

Record CategoryWithCount := mkCounted {
  category : Category;
  taskCount : Z
}.

#[global] Instance Category_eq_dec : EqDecision Category.
Proof. solve_decision. Defined.

(** ** Errors, traces and the effect monad *)

(** A thrown JavaScript value: the error's name and message. *)
Record error := mkError {
  err_name : string;
  err_message : string
}.

(** The sentinel returned by Firestore's [serverTimestamp()]. *)
Inductive FieldValue := serverTimestamp.

(** The document written by [addDoc]. *)
Record CategoryData := mkData {
  d_name : string;
  d_color : string;
  d_backgroundColor : string;
  d_icon : string;
  d_createdAt : FieldValue;
  d_updatedAt : FieldValue
}.

(** The partial document written by [updateDoc]:
    [{...updateCategoryDto, updatedAt: serverTimestamp()}]. *)
Record UpdateData := mkUpdateData {
  ud_fields : UpdateCategoryDto;
  ud_updatedAt : FieldValue
}.

Inductive event :=
| ConsoleError (message : string) (err : error)
| GetItem (key : string)
| SetItem (key value : string)
| AddDoc (path : string) (data : CategoryData)
| UpdateDoc (path docId : string) (data : UpdateData)
| DeleteDoc (path docId : string).

Inductive completion (A : Type) :=
| Returned (a : A)
| Threw (e : error).
Arguments Returned {A} a.
Arguments Threw {A} e.

(** The world of a service instance.  [B] is the backing store.
    [clock] gives the successive readings of the system clock and [reads]
    counts the readings taken so far; [random] and [draws] do the same for
    the suffixes [Math.random().toString(36).substr(2, 9)] (the floating
    point arithmetic behind a suffix is not modelled). *)
Record World (B : Type) := mkWorld {
  categoriesSignal : list Category;
  backing : B;
  trace : list event;
  clock : nat → Z;
  reads : nat;
  random : nat → string;
  draws : nat
}.
Arguments mkWorld {B}.
Arguments categoriesSignal {B}.
Arguments backing {B}.
Arguments trace {B}.
Arguments clock {B}.
Arguments reads {B}.
Arguments random {B}.
Arguments draws {B}.

Definition Eff (B A : Type) : Type := World B → completion A * World B.

#[global] Instance Eff_ret {B} : MRet (Eff B) :=
  λ A (a : A) w, (Returned a, w).

(** Sequencing: a thrown error skips the rest of the block. *)
#[global] Instance Eff_bind {B} : MBind (Eff B) :=
  λ A C (k : A → Eff B C) (m : Eff B A) w,
    match m w with
    | (Returned a, w') => k a w'
    | (Threw e, w') => (Threw e, w')
    end.

Definition throw {B A} (e : error) : Eff B A := λ w, (Threw e, w).

(** [try { body } catch (error) { handler error }] *)
Definition try_catch {B A} (body : Eff B A) (handler : error → Eff B A) : Eff B A :=
  λ w, match body w with
       | (Returned a, w') => (Returned a, w')
       | (Threw e, w') => handler e w'
       end.

Section Runtime.
Context {B : Type}.

Definition emit (e : event) : Eff B unit :=
  λ w, (Returned tt,
        mkWorld (categoriesSignal w) (backing w) (trace w ++ [e])
                (clock w) (reads w) (random w) (draws w)).

(** [console.error(message, error)] *)
Definition console_error (message : string) (err : error) : Eff B unit :=
  emit (ConsoleError message err).

(** One reading of the system clock: [Date.now()], and the time value of
    [new Date()]. *)
Definition Date_now : Eff B Z :=
  λ w, (Returned (clock w (reads w)),
        mkWorld (categoriesSignal w) (backing w) (trace w)
                (clock w) (S (reads w)) (random w) (draws w)).

Definition new_Date : Eff B Z := Date_now.

(** [Math.random().toString(36).substr(2, 9)] *)
Definition Math_random_suffix : Eff B string :=
  λ w, (Returned (random w (draws w)),
        mkWorld (categoriesSignal w) (backing w) (trace w)
                (clock w) (reads w) (random w) (S (draws w))).

(** [this.categoriesSignal.set(value)] *)
Definition categoriesSignal_set (value : list Category) : Eff B unit :=
  λ w, (Returned tt,
        mkWorld value (backing w) (trace w)
                (clock w) (reads w) (random w) (draws w)).

(** [this.categories()]: the read-only view of the signal. *)
Definition categories : Eff B (list Category) :=
  λ w, (Returned (categoriesSignal w), w).

Definition get_backing : Eff B B := λ w, (Returned (backing w), w).

Definition set_backing (b : B) : Eff B unit :=
  λ w, (Returned tt,
        mkWorld (categoriesSignal w) b (trace w)
                (clock w) (reads w) (random w) (draws w)).
End Runtime.

(** ** JavaScript array methods used by the services *)

Section Arrays.
Context {A : Type}.

(** [Array.prototype.find]: the first element satisfying [p]. *)
Fixpoint find (p : A → bool) (l : list A) : option A :=
  match l with
  | [] => None
  | x :: l' => if p x then Some x else find p l'
  end.

(** [Array.prototype.findIndex]: the index of the first element
    satisfying [p], or [-1]. *)
Fixpoint findIndex_from (p : A → bool) (i : Z) (l : list A) : Z :=
  match l with
  | [] => -1
  | x :: l' => if p x then i else findIndex_from p (i + 1) l'
  end.

Definition findIndex (p : A → bool) (l : list A) : Z := findIndex_from p 0 l.

(** [l.slice(start, stop)] and [l.slice(start)] for indices that are not
    negative, which is the only way the services call them. *)
Definition slice (start stop : Z) (l : list A) : list A :=
  take (Z.to_nat stop - Z.to_nat start) (drop (Z.to_nat start) l).

Definition slice_from (start : Z) (l : list A) : list A :=
  drop (Z.to_nat start) l.

(** [l[i]] *)
Definition at_index (l : list A) (i : Z) : option A :=
  if i <? 0 then None else l !! Z.to_nat i.
End Arrays.

(** [l.length] *)
Definition length_of {A} (l : list A) : Z := Z.of_nat (length l).

(** [{...category, ...updateCategoryDto, updatedAt: now}] *)
Definition spread_update (c : Category) (dto : UpdateCategoryDto) (now : Z) : Category :=
  {| id := id c;
     name := default (name c) (u_name dto);
     color := default (color c) (u_color dto);
     backgroundColor := default (backgroundColor c) (u_backgroundColor dto);
     icon := default (icon c) (u_icon dto);
     createdAt := createdAt c;
     updatedAt := now |}.

(** [taskCounts.get(category.id) || 0]: an absent entry is [undefined],
    and [undefined] and [0] are both falsy.  Counts are integers; [NaN],
    the other falsy number, is outside the model. *)
Definition count_or_zero (taskCounts : gmap string Z) (key : string) : Z :=
  match taskCounts !! key with
  | Some n => if n =? 0 then 0 else n
  | None => 0
  end.

(** [{...category, taskCount: taskCounts.get(category.id) || 0}] *)
Definition with_count (taskCounts : gmap string Z) (c : Category) : CategoryWithCount :=
  {| category := c; taskCount := count_or_zero taskCounts (id c) |}.

(** ** The platform's JSON codec *)

(** An element of the array returned by [JSON.parse], seen as a [Category]
    (the cast in [loadCategories] checks nothing): its dates are still the
    strings [JSON.stringify] wrote. *)
Record StoredCategory := mkStored {
  s_id : string;
  s_name : string;
  s_color : string;
  s_backgroundColor : string;
  s_icon : string;
  s_createdAt : string;
  s_updatedAt : string
}.

(** [JSON.stringify], [JSON.parse] and the [Date] constructor on a string
    belong to the JavaScript runtime; the services are verified for every
    runtime.  [JSON_parse text] is [inl e] when parsing [text] throws [e],
    and also when the parsed value is not an array of objects, in which case
    the [categories.map(...)] that follows the parse throws a [TypeError]
    inside the same [try] block. *)
Class Json := {
  JSON_stringify : list Category → string;
  JSON_parse : string → error + list StoredCategory;
  Date_of_string : string → Z
}.

(** ** The local store: [CategoryService] *)

(** [localStorage]: the stored items, and which calls the browser refuses
    ([setItem] throws when the quota is exceeded or storage is disabled,
    [getItem] when storage is not accessible). *)
Record Storage := mkStorage {
  items : gmap string string;
  getItem_error : string → option error;
  setItem_error : string → string → option error
}.

Module CategoryService.
Section Service.
Context `{Json}.

Definition STORAGE_KEY : string := "categories".

Definition localStorage_getItem (key : string) : Eff Storage (option string) :=
  emit (GetItem key);;
  storage ← get_backing;
  match getItem_error storage key with
  | Some e => throw e
  | None => mret (items storage !! key)
  end.

Definition localStorage_setItem (key value : string) : Eff Storage unit :=
  emit (SetItem key value);;
  storage ← get_backing;
  match setItem_error storage key value with
  | Some e => throw e
  | None =>
      set_backing (mkStorage (<[key := value]> (items storage))
                             (getItem_error storage) (setItem_error storage))
  end.

(** [computed(() => this.categories().length)] *)
Definition categoryCount : Eff Storage Z :=
  cs ← categories;
  mret (length_of cs).

Definition categoryStats : Eff Storage CategoryStats :=
  t ← categoryCount;
  e ← categoryCount;
  mret {| total := t; withTasks := 0; empty := e |}.

Definition getCategories : Eff Storage (list Category) := categories.

Definition getCategoryById (id0 : string) : Eff Storage (option Category) :=
  cs ← categories;
  mret (find (λ c, String.eqb (id c) id0) cs).

Definition generateId : Eff Storage string :=
  now ← Date_now;
  suffix ← Math_random_suffix;
  mret (pretty now +:+ "-" +:+ suffix).

Definition updateCategories (cs : list Category) : Eff Storage unit :=
  try_catch
    (localStorage_setItem STORAGE_KEY (JSON_stringify cs);;
     categoriesSignal_set cs)
    (λ error, console_error "Error al guardar las categorías:" error).

Definition createCategory (createCategoryDto : CreateCategoryDto)
  : Eff Storage Category :=
  newId ← generateId;
  created ← new_Date;
  updated ← new_Date;
  let newCategory :=
    {| id := newId;
       name := c_name createCategoryDto;
       color := c_color createCategoryDto;
       backgroundColor := c_backgroundColor createCategoryDto;
       icon := c_icon createCategoryDto;
       createdAt := created;
       updatedAt := updated |} in
  currentCategories ← categories;
  updateCategories (currentCategories ++ [newCategory]);;
  mret newCategory.

(** [None] is the [null] result.  The inner [None] branch cannot be
    taken: [findIndex] returned an index of [currentCategories]. *)
Definition updateCategory (id0 : string) (updateCategoryDto : UpdateCategoryDto)
  : Eff Storage (option Category) :=
  currentCategories ← categories;
  let categoryIndex := findIndex (λ c, String.eqb (id c) id0) currentCategories in
  if categoryIndex =? -1 then mret None
  else
    match at_index currentCategories categoryIndex with
    | None => mret None
    | Some current =>
        now ← new_Date;
        let updatedCategory := spread_update current updateCategoryDto now in
        let updatedCategories :=
          slice 0 categoryIndex currentCategories
            ++ [updatedCategory]
            ++ slice_from (categoryIndex + 1) currentCategories in
        updateCategories updatedCategories;;
        mret (Some updatedCategory)
    end.

Definition deleteCategory (id0 : string) : Eff Storage bool :=
  currentCategories ← categories;
  let filteredCategories :=
    List.filter (λ c, negb (String.eqb (id c) id0)) currentCategories in
  if length_of filteredCategories =? length_of currentCategories then mret false
  else
    updateCategories filteredCategories;;
    mret true.

Definition clearAllCategories : Eff Storage unit := updateCategories [].

Definition getCategoriesWithCount (taskCounts : gmap string Z)
  : Eff Storage (list CategoryWithCount) :=
  cs ← categories;
  mret (map (with_count taskCounts) cs).

(** [{...category, createdAt: new Date(category.createdAt),
      updatedAt: new Date(category.updatedAt)}] *)
Definition revive (c : StoredCategory) : Category :=
  {| id := s_id c;
     name := s_name c;
     color := s_color c;
     backgroundColor := s_backgroundColor c;
     icon := s_icon c;
     createdAt := Date_of_string (s_createdAt c);
     updatedAt := Date_of_string (s_updatedAt c) |}.

(** [if (stored)]: [null] and the empty string are falsy. *)
Definition truthy (stored : option string) : option string :=
  match stored with
  | Some "" => None
  | other => other
  end.

Definition loadCategories : Eff Storage unit :=
  try_catch
    (stored ← localStorage_getItem STORAGE_KEY;
     match truthy stored with
     | Some text =>
         match JSON_parse text with
         | inl e => throw e
         | inr parsed => categoriesSignal_set (map revive parsed)
         end
     | None => mret tt
     end)
    (λ error,
      console_error "Error al cargar las categorías:" error;;
      categoriesSignal_set []).

(** [new CategoryService()]: the signal starts as [[]], then the
    constructor loads the stored categories. *)
Definition constructor : Eff Storage unit :=
  categoriesSignal_set [];;
  loadCategories.
End Service.
End CategoryService.

(** ** The remote store: [FirebaseCategoryService] *)

(** The Firestore client is an external library.  A write is recorded in the
    trace, and the service's answer to it is read from the backing value:
    [addDoc] is acknowledged with the key of the new document or rejected,
    [updateDoc] and [deleteDoc] are acknowledged or rejected. *)
Record Firestore := mkFirestore {
  addDoc_reply : string → CategoryData → error + string;
  updateDoc_reply : string → string → UpdateData → option error;
  deleteDoc_reply : string → string → option error
}.

(** A document delivered by [collectionData(..., {idField: 'id'})].  The
    timestamps are absent while the server has not committed them. *)
Record Document := mkDocument {
  doc_id : string;
  doc_name : string;
  doc_color : string;
  doc_backgroundColor : string;
  doc_icon : string;
  doc_createdAt : option Z;
  doc_updatedAt : option Z
}.

Module FirebaseCategoryService.

Definition COLLECTION : string := "categories".

(** [await addDoc(collection, data)] *)
Definition addDoc (path : string) (data : CategoryData) : Eff Firestore string :=
  emit (AddDoc path data);;
  firestore ← get_backing;
  match addDoc_reply firestore path data with
  | inl e => throw e
  | inr key => mret key
  end.

(** [await updateDoc(doc(firestore, path, id), data)] *)
Definition updateDoc (path docId : string) (data : UpdateData) : Eff Firestore unit :=
  emit (UpdateDoc path docId data);;
  firestore ← get_backing;
  match updateDoc_reply firestore path docId data with
  | Some e => throw e
  | None => mret tt
  end.

(** [await deleteDoc(doc(firestore, path, id))] *)
Definition deleteDoc (path docId : string) : Eff Firestore unit :=
  emit (DeleteDoc path docId);;
  firestore ← get_backing;
  match deleteDoc_reply firestore path docId with
  | Some e => throw e
  | None => mret tt
  end.

Definition categoryCount : Eff Firestore Z :=
  cs ← categories;
  mret (length_of cs).

Definition categoryStats : Eff Firestore CategoryStats :=
  t ← categoryCount;
  e ← categoryCount;
  mret {| total := t; withTasks := 0; empty := e |}.

(** [timestamp?.toDate() || new Date()]: a [Date] is always truthy, so
    the clock is read only when the timestamp is absent. *)
Definition toDate_or_now (timestamp : option Z) : Eff Firestore Z :=
  match timestamp with
  | Some t => mret t
  | None => new_Date
  end.

(** The function mapped over the delivered documents in [getCategories$]. *)
Definition toCategory (doc : Document) : Eff Firestore Category :=
  created ← toDate_or_now (doc_createdAt doc);
  updated ← toDate_or_now (doc_updatedAt doc);
  mret {| id := doc_id doc;
          name := doc_name doc;
          color := doc_color doc;
          backgroundColor := doc_backgroundColor doc;
          icon := doc_icon doc;
          createdAt := created;
          updatedAt := updated |}.

(** What [getCategories$()] emits for one delivery of the live query. *)
Definition getCategories_emit (docs : list Document) : Eff Firestore (list Category) :=
  mapM toCategory docs.

(** The [next] and [error] callbacks subscribed in [loadCategories]. *)
Definition subscription_next (docs : list Document) : Eff Firestore unit :=
  cs ← getCategories_emit docs;
  categoriesSignal_set cs.

Definition subscription_error (error : error) : Eff Firestore unit :=
  console_error "Error al cargar categorías desde Firestore:" error;;
  categoriesSignal_set [].

(** [new FirebaseCategoryService()]: the signal starts as [[]] and the
    subscription is opened; deliveries arrive later. *)
Definition constructor : Eff Firestore unit := categoriesSignal_set [].

Definition getCategories : Eff Firestore (list Category) := categories.

Definition getCategoryById (id0 : string) : Eff Firestore (option Category) :=
  cs ← categories;
  mret (find (λ c, String.eqb (id c) id0) cs).

Definition createCategory (createCategoryDto : CreateCategoryDto)
  : Eff Firestore Category :=
  try_catch
    (let categoryData :=
       {| d_name := c_name createCategoryDto;
          d_color := c_color createCategoryDto;
          d_backgroundColor := c_backgroundColor createCategoryDto;
          d_icon := c_icon createCategoryDto;
          d_createdAt := serverTimestamp;
          d_updatedAt := serverTimestamp |} in
     docRef ← addDoc COLLECTION categoryData;
     created ← new_Date;
     updated ← new_Date;
     mret {| id := docRef;
             name := c_name createCategoryDto;
             color := c_color createCategoryDto;
             backgroundColor := c_backgroundColor createCategoryDto;
             icon := c_icon createCategoryDto;
             createdAt := created;
             updatedAt := updated |})
    (λ error,
      console_error "Error al crear categoría en Firestore:" error;;
      throw error).

Definition updateCategory (id0 : string) (updateCategoryDto : UpdateCategoryDto)
  : Eff Firestore (option Category) :=
  try_catch
    (found ← getCategoryById id0;
     match found with
     | None => mret None
     | Some current =>
         let updateData :=
           {| ud_fields := updateCategoryDto; ud_updatedAt := serverTimestamp |} in
         updateDoc COLLECTION id0 updateData;;
         now ← new_Date;
         mret (Some (spread_update current updateCategoryDto now))
     end)
    (λ error,
      console_error "Error al actualizar categoría en Firestore:" error;;
      throw error).

Definition deleteCategory (id0 : string) : Eff Firestore bool :=
  try_catch
    (found ← getCategoryById id0;
     match found with
     | None => mret false
     | Some _ =>
         deleteDoc COLLECTION id0;;
         mret true
     end)
    (λ error,
      console_error "Error al eliminar categoría en Firestore:" error;;
      throw error).

Definition getCategoriesWithCount (taskCounts : gmap string Z)
  : Eff Firestore (list CategoryWithCount) :=
  cs ← categories;
  mret (map (with_count taskCounts) cs).

End FirebaseCategoryService.

(** ** Reachable states *)

(** The mutating operations of the local store. *)
Inductive local_op :=
| LCreate (dto : CreateCategoryDto)
| LUpdate (id0 : string) (dto : UpdateCategoryDto)
| LDelete (id0 : string)
| LClear.

(** The state an operation leaves behind. *)
Definition after {B A} (m : Eff B A) (w : World B) : World B := (m w).2.

(** What an operation hands back to its caller. *)
Definition outcome {B A} (m : Eff B A) (w : World B) : completion A := (m w).1.

Section LocalReach.
Context `{Json}.

Definition local_step (op : local_op) (w : World Storage) : World Storage :=
  match op with
  | LCreate dto => after (CategoryService.createCategory dto) w
  | LUpdate id0 dto => after (CategoryService.updateCategory id0 dto) w
  | LDelete id0 => after (CategoryService.deleteCategory id0) w
  | LClear => after CategoryService.clearAllCategories w
  end.

(** A local store is constructed in some world and then operated on. *)
Inductive local_reachable : World Storage → Prop :=
| local_constructed w0 :
    local_reachable (after CategoryService.constructor w0)
| local_operated op w :
    local_reachable w → local_reachable (local_step op w).
End LocalReach.

(** The operations of the remote store, and the deliveries of its live
    subscription. *)
Inductive remote_op :=
| RCreate (dto : CreateCategoryDto)
| RUpdate (id0 : string) (dto : UpdateCategoryDto)
| RDelete (id0 : string)
| RNext (docs : list Document)
| RError (e : error).

Definition remote_step (op : remote_op) (w : World Firestore) : World Firestore :=
  match op with
  | RCreate dto => after (FirebaseCategoryService.createCategory dto) w
  | RUpdate id0 dto => after (FirebaseCategoryService.updateCategory id0 dto) w
  | RDelete id0 => after (FirebaseCategoryService.deleteCategory id0) w
  | RNext docs => after (FirebaseCategoryService.subscription_next docs) w
  | RError e => after (FirebaseCategoryService.subscription_error e) w
  end.

Inductive remote_reachable : World Firestore → Prop :=
| remote_constructed w0 :
    remote_reachable (after FirebaseCategoryService.constructor w0)
| remote_operated op w :
    remote_reachable w → remote_reachable (remote_step op w).

(** ** References: what the callers of the services hold *)

(** The services hand JavaScript values to their callers: arrays and
    objects are handed out by reference.  This layer keeps the objects in a
    heap, so that a value handed out and the collection held by the signal
    can be the same object.  The methods below have the same body in
    [CategoryService] and in [FirebaseCategoryService]. *)
Module References.

Definition ref := positive.

(** A category object: its dates are [Date] objects, held by reference. *)
Record CategoryObject := mkObject {
  o_id : string;
  o_name : string;
  o_color : string;
  o_backgroundColor : string;
  o_icon : string;
  o_createdAt : ref;
  o_updatedAt : ref
}.

Inductive object :=
| DateObj (time : Z)
| CategoryObj (fields : CategoryObject)
| CountedObj (fields : CategoryObject) (count : Z)
| ArrayObj (elements : list ref).

(** A service instance: the heap, and the array [categoriesSignal] holds. *)
Record Instance := mkInstance {
  objects : gmap ref object;
  signal : ref
}.

(** *** Reading values out of the heap *)

Definition date_at (h : gmap ref object) (r : ref) : option Z :=
  match h !! r with
  | Some (DateObj t) => Some t
  | _ => None
  end.

Definition category_of (h : gmap ref object) (o : CategoryObject) : option Category :=
  created ← date_at h (o_createdAt o);
  updated ← date_at h (o_updatedAt o);
  Some {| id := o_id o; name := o_name o; color := o_color o;
          backgroundColor := o_backgroundColor o; icon := o_icon o;
          createdAt := created; updatedAt := updated |}.

Definition category_at (h : gmap ref object) (r : ref) : option Category :=
  match h !! r with
  | Some (CategoryObj o) => category_of h o
  | _ => None
  end.

Definition counted_at (h : gmap ref object) (r : ref) : option CategoryWithCount :=
  match h !! r with
  | Some (CountedObj o n) => c ← category_of h o; Some {| category := c; taskCount := n |}
  | _ => None
  end.

Definition array_at (h : gmap ref object) (r : ref) : option (list ref) :=
  match h !! r with
  | Some (ArrayObj elements) => Some elements
  | _ => None
  end.

Definition collection_at (h : gmap ref object) (r : ref) : option (list Category) :=
  elements ← array_at h r;
  mapM (category_at h) elements.

Definition counted_collection_at (h : gmap ref object) (r : ref)
  : option (list CategoryWithCount) :=
  elements ← array_at h r;
  mapM (counted_at h) elements.

(** The collection the store holds: what its signal's array reads as. *)
Definition snapshot (s : Instance) : option (list Category) :=
  collection_at (objects s) (signal s).

(** *** The methods that hand values out *)

(** [this.categories()]: the value of the signal, that is the array the
    signal holds. *)
Definition categories (s : Instance) : ref := signal s.

(** [return this.categories();] *)
Definition getCategories (s : Instance) : ref := categories s.

Definition has_id (h : gmap ref object) (id0 : string) (r : ref) : bool :=
  match h !! r with
  | Some (CategoryObj o) => String.eqb (o_id o) id0
  | _ => false
  end.

(** [return this.categories().find(c => c.id === id);] -- the element
    itself.  The outer [None] is a heap in which the signal holds no
    array; the inner one is [undefined]. *)
Definition getCategoryById (id0 : string) (s : Instance) : option (option ref) :=
  elements ← array_at (objects s) (categories s);
  Some (find (has_id (objects s) id0) elements).

(** A new object: it gets a reference that is not in use. *)
Definition alloc (o : object) (h : gmap ref object) : ref * gmap ref object :=
  let r := fresh (dom h) in (r, <[r := o]> h).

(** [elements.map(category => ({...category, taskCount: ...}))]: one new
    object per element, with the fields of the element. *)
Fixpoint map_with_count (taskCounts : gmap string Z) (elements : list ref)
    (h : gmap ref object) : option (list ref * gmap ref object) :=
  match elements with
  | [] => Some ([], h)
  | e :: rest =>
      match h !! e with
      | Some (CategoryObj o) =>
          let '(r, h1) := alloc (CountedObj o (count_or_zero taskCounts (o_id o))) h in
          match map_with_count taskCounts rest h1 with
          | Some (rs, h2) => Some (r :: rs, h2)
          | None => None
          end
      | _ => None
      end
  end.

(** [getCategoriesWithCount]: the mapped objects, then the new array that
    holds them. *)
Definition getCategoriesWithCount (taskCounts : gmap string Z) (s : Instance)
  : option (ref * Instance) :=
  elements ← array_at (objects s) (categories s);
  '(rs, h1) ← map_with_count taskCounts elements (objects s);
  let '(a, h2) := alloc (ArrayObj rs) h1 in
  Some (a, mkInstance h2 (signal s)).

(** *** What a caller can do with a reference *)

(** A caller-side mutation of the object behind a reference it holds: an
    assignment to a field, [push], [pop], [splice], [length = 0] and the
    like all replace the object's content. *)
Definition caller_writes (r : ref) (o : object) (s : Instance) : Instance :=
  mkInstance (<[r := o]> (objects s)) (signal s).

(** [array.pop()] on the array behind [r]. *)
Definition caller_pops (r : ref) (s : Instance) : Instance :=
  match objects s !! r with
  | Some (ArrayObj elements) =>
      caller_writes r (ArrayObj (take (length elements - 1) elements)) s
  | _ => s
  end.

(** A sample instance: the signal holds the array [[cat_a; cat_b]]. *)
Definition sample_instance : Instance :=
  mkInstance
    {[ 1%positive := DateObj 10;
       2%positive := DateObj 20;
       3%positive := CategoryObj (mkObject "a" "Home" "#111" "#eee" "home" 1%positive 1%positive);
       4%positive := CategoryObj (mkObject "b" "Work" "#fff" "#000" "briefcase" 2%positive 2%positive);
       5%positive := ArrayObj [3%positive; 4%positive] ]}
    5%positive.

End References.

(** ** Statement vocabulary *)

(** The browser accepts the write of the collection [cs] under the
    storage key: the [setItem] of [updateCategories] does not throw. *)
Definition persists `{Json} (w : World Storage) (cs : list Category) : Prop :=
  setItem_error (backing w) CategoryService.STORAGE_KEY (JSON_stringify cs) = None.

(** The words of the specification for an update: a field the DTO defines
    takes the DTO's value, a field it does not define keeps its value. *)
Definition replaced_or_kept (old : string) (new : option string) (result : string) : Prop :=
  match new with
  | Some v => result = v
  | None => result = old
  end.

Definition merged (c : Category) (dto : UpdateCategoryDto) (r : Category) : Prop :=
  replaced_or_kept (name c) (u_name dto) (name r) ∧
  replaced_or_kept (color c) (u_color dto) (color r) ∧
  replaced_or_kept (backgroundColor c) (u_backgroundColor dto) (backgroundColor r) ∧
  replaced_or_kept (icon c) (u_icon dto) (icon r) ∧
  id r = id c ∧
  createdAt r = createdAt c.

(** The words of the specification: the count is the length of the
    snapshot, and the statistics are [{total: count, withTasks: 0,
    empty: count}]. *)
Definition consistent (snapshot : completion (list Category))
    (count : completion Z) (stats : completion CategoryStats) : Prop :=
  ∃ cs n st,
    snapshot = Returned cs ∧ count = Returned n ∧ stats = Returned st ∧
    n = Z.of_nat (length cs) ∧
    total st = n ∧ withTasks st = 0 ∧ empty st = total st.

(** The words of the specification for getCategoriesWithCount: one counted
    record per category, in the order of the snapshot, carrying the category
    unchanged and the count the mapping gives for its id, or 0 when the
    mapping has no entry for it. *)
Definition counted (taskCounts : gmap string Z) (cs : list Category)
    (result : list CategoryWithCount) : Prop :=
  length result = length cs ∧
  ∀ (i : nat) (c : Category),
    cs !! i = Some c →
    ∃ cc, result !! i = Some cc ∧ category cc = c ∧
          taskCount cc = default 0 (taskCounts !! id c).

(** ** Worlds after an effect *)

(** The world after one more reading of the clock. *)
Definition ticked {B} (w : World B) : World B :=
  mkWorld (categoriesSignal w) (backing w) (trace w)
          (clock w) (S (reads w)) (random w) (draws w).

Section Persisted.
Context `{Json}.

(** The write was accepted: the item is stored and the signal is set. *)
Definition written (cs : list Category) (w : World Storage) : World Storage :=
  mkWorld cs
    (mkStorage
       (<[CategoryService.STORAGE_KEY := JSON_stringify cs]> (items (backing w)))
       (getItem_error (backing w)) (setItem_error (backing w)))
    (trace w ++ [SetItem CategoryService.STORAGE_KEY (JSON_stringify cs)])
    (clock w) (reads w) (random w) (draws w).

(** The write threw [e]: the error is logged, nothing else changes. *)
Definition refused (cs : list Category) (e : error) (w : World Storage)
  : World Storage :=
  mkWorld (categoriesSignal w) (backing w)
    (trace w ++ [SetItem CategoryService.STORAGE_KEY (JSON_stringify cs);
                 ConsoleError "Error al guardar las categorías:" e])
    (clock w) (reads w) (random w) (draws w).

(** What a refused local write leaves behind: the attempted write and the
    diagnostic in the trace, the collection and the storage untouched. *)
Definition logged_and_swallowed (w w' : World Storage)
    (cs : list Category) (e : error) : Prop :=
  trace w' = trace w ++ [SetItem CategoryService.STORAGE_KEY (JSON_stringify cs);
                        ConsoleError "Error al guardar las categorías:" e] ∧
  categoriesSignal w' = categoriesSignal w ∧
  backing w' = backing w.
End Persisted.

(** The world after the events [es] were appended to the trace. *)
Definition logged {B} (es : list event) (w : World B) : World B :=
  mkWorld (categoriesSignal w) (backing w) (trace w ++ es)
          (clock w) (reads w) (random w) (draws w).

(** The document [createCategory] sends to Firestore for a DTO. *)
Definition document_for (dto : CreateCategoryDto) : CategoryData :=
  {| d_name := c_name dto; d_color := c_color dto;
     d_backgroundColor := c_backgroundColor dto; d_icon := c_icon dto;
     d_createdAt := serverTimestamp; d_updatedAt := serverTimestamp |}.

(** The partial document [updateCategory] sends to Firestore for a DTO. *)
Definition update_for (dto : UpdateCategoryDto) : UpdateData :=
  {| ud_fields := dto; ud_updatedAt := serverTimestamp |}.

(** ** Sample worlds *)

(** A small runtime for running the services on examples: it prints a
    collection as the list of its ids, and parses only the empty array. *)
Definition sample_json : Json := {|
  JSON_stringify := λ cs, "[" +:+ String.concat "," (map id cs) +:+ "]";
  JSON_parse := λ text,
    if String.eqb text "[]" then inr []
    else inl (mkError "SyntaxError" "Unexpected token");
  Date_of_string := λ _, 0
|}.

Definition quota_exceeded : error :=
  mkError "QuotaExceededError" "The quota has been exceeded.".

Definition permission_denied : error :=
  mkError "FirebaseError" "Missing or insufficient permissions.".

Definition empty_storage : Storage :=
  mkStorage ∅ (λ _, None) (λ _ _, None).

Definition full_storage : Storage :=
  mkStorage ∅ (λ _, None) (λ _ _, Some quota_exceeded).

Definition corrupt_storage : Storage :=
  mkStorage {[ "categories" := "{oops" ]} (λ _, None) (λ _ _, None).

Definition blocked_storage : Storage :=
  mkStorage ∅ (λ _, Some (mkError "SecurityError" "The operation is insecure."))
            (λ _ _, None).

Definition accepting_firestore : Firestore :=
  mkFirestore (λ _ _, inr "doc1") (λ _ _ _, None) (λ _ _, None).

Definition rejecting_firestore : Firestore :=
  mkFirestore (λ _ _, inl permission_denied)
              (λ _ _ _, Some permission_denied)
              (λ _ _, Some permission_denied).

(** A clock that advances by one millisecond at every reading, and one
    that stands still. *)
Definition ticking_clock : nat → Z := λ n, 1000 + Z.of_nat n.
Definition still_clock : nat → Z := λ _, 1000.

Definition sample_world {B} (b : B) (clk : nat → Z) (cs : list Category) : World B :=
  mkWorld cs b [] clk 0%nat (λ _, "k3j9x0q1z") 0%nat.

Definition work_dto : CreateCategoryDto :=
  mkCreateDto "Work" "#fff" "#000" "briefcase".

Definition job_dto : UpdateCategoryDto :=
  mkUpdateDto (Some "Job") None None None.

Definition cat_a : Category := mkCategory "a" "Home" "#111" "#eee" "home" 10 10.
Definition cat_b : Category := mkCategory "b" "Work" "#fff" "#000" "briefcase" 20 20.
Definition cat_c : Category := mkCategory "c" "Gym" "#222" "#ddd" "barbell" 30 30.

(** ** Sequences of operations, and storage in step with memory *)

(** The world after a sequence of operations of the local store. *)
Definition local_run `{Json} (ops : list local_op) (w : World Storage)
  : World Storage :=
  foldl (λ w' op, local_step op w') w ops.

(** The world after a sequence of operations and deliveries of the remote
    store. *)
Definition remote_run (ops : list remote_op) (w : World Firestore)
  : World Firestore :=
  foldl (λ w' op, remote_step op w') w ops.

(** The item stored under the key is the serialization of the collection
    the signal holds. *)
Definition synced `{Json} (w : World Storage) : Prop :=
  items (backing w) !! CategoryService.STORAGE_KEY
  = Some (JSON_stringify (categoriesSignal w)).

(** The runtime gives back, from the text it wrote for [cs], records that
    [loadCategories] revives to [cs]. *)
Definition round_trips `{Json} (cs : list Category) : Prop :=
  JSON_stringify cs ≠ "" ∧
  ∃ stored, JSON_parse (JSON_stringify cs) = inr stored ∧
            map CategoryService.revive stored = cs.

(** The id [generateId] makes in the world [w]. *)
Definition next_id {B} (w : World B) : string :=
  pretty (clock w (reads w)) +:+ "-" +:+ random w (draws w).

(** A string without a hyphen. *)
Fixpoint hyphen_free (s : string) : bool :=
  match s with
  | EmptyString => true
  | String a s' => negb (String.eqb (String a EmptyString) "-") && hyphen_free s'
  end.

(** The category a delivered document stands for when the server has
    committed both of its timestamps. *)
Definition committed (doc : Document) : option Category :=
  created ← doc_createdAt doc;
  updated ← doc_updatedAt doc;
  Some {| id := doc_id doc; name := doc_name doc; color := doc_color doc;
          backgroundColor := doc_backgroundColor doc; icon := doc_icon doc;
          createdAt := created; updatedAt := updated |}.

(** A sample runtime that reads back the one collection [cs0]: it prints a
    date as its number of milliseconds, and parses the text it prints for
    [cs0] into the records of [cs0]. *)
Definition echo_stored (c : Category) : StoredCategory :=
  mkStored (id c) (name c) (color c) (backgroundColor c) (icon c)
           (pretty (createdAt c)) (pretty (updatedAt c)).

Definition echo_json (cs0 : list Category) : Json := {|
  JSON_stringify := λ cs, "[" +:+ String.concat "," (map id cs) +:+ "]";
  JSON_parse := λ text,
    if String.eqb text ("[" +:+ String.concat "," (map id cs0) +:+ "]")
    then inr (map echo_stored cs0)
    else inl (mkError "SyntaxError" "Unexpected token");
  Date_of_string := λ s,
    default 0 (find (λ t, String.eqb (pretty t) s)
                    (map createdAt cs0 ++ map updatedAt cs0))
|}.

(** The operations of the remote store that write to Firestore, as opposed
    to the deliveries of the subscription. *)
Definition is_write_op (op : remote_op) : bool :=
  match op with
  | RCreate _ | RUpdate _ _ | RDelete _ => true
  | RNext _ | RError _ => false
  end.

(** The failure of the subscription: the rxjs subscription of
    [loadCategories] ends with it, so no delivery follows one. *)
Definition is_failure (op : remote_op) : bool :=
  match op with
  | RError _ => true
  | _ => false
  end.

(** The one subscription of [loadCategories] (l.57-67), with the flag that
    says whether it is still open.  It is open from the constructor on and
    ends at its first error: a change of the collection after that is
    delivered to nobody, and no second error arrives.  The three writes do
    not depend on it. *)
Definition subscribed_step (op : remote_op) (s : bool * World Firestore)
  : bool * World Firestore :=
  match op with
  | RNext _ => if s.1 then (true, remote_step op s.2) else s
  | RError _ => if s.1 then (false, remote_step op s.2) else s
  | _ => (s.1, remote_step op s.2)
  end.

(** The subscription and the world after a sequence of operations and
    changes of the collection, from an open subscription. *)
Definition subscribed_run (ops : list remote_op) (w : World Firestore)
  : bool * World Firestore :=
  foldl (λ s op, subscribed_step op s) (true, w) ops.

(** The readings of the client's clock a delivery of a document takes: one
    for each timestamp the server has not committed. *)
Definition absent (timestamp : option Z) : nat :=
  match timestamp with
  | Some _ => 0
  | None => 1
  end.

Definition absent_timestamps (doc : Document) : nat :=
  absent (doc_createdAt doc) + absent (doc_updatedAt doc).

(** What the cache holds of a delivered document: its key and fields, each
    timestamp the server committed, and, for a timestamp that is absent, a
    reading of the client's clock taken during the delivery, that is one of
    the readings numbered from [first] up to, not including, [next]. *)
Definition delivered_during (clk : nat → Z) (first next : nat)
    (doc : Document) (c : Category) : Prop :=
  id c = doc_id doc ∧ name c = doc_name doc ∧ color c = doc_color doc ∧
  backgroundColor c = doc_backgroundColor doc ∧ icon c = doc_icon doc ∧
  match doc_createdAt doc with
  | Some t => createdAt c = t
  | None => ∃ n, (first ≤ n < next)%nat ∧ createdAt c = clk n
  end ∧
  match doc_updatedAt doc with
  | Some t => updatedAt c = t
  | None => ∃ n, (first ≤ n < next)%nat ∧ updatedAt c = clk n
  end.

(** The world after [n] more readings of the clock. *)
Definition advanced {B} (n : nat) (w : World B) : World B :=
  mkWorld (categoriesSignal w) (backing w) (trace w)
          (clock w) (n + reads w) (random w) (draws w).

(** Whether the browser accepts the write of the collection [cs]. *)
Definition accepts `{Json} (w : World Storage) (cs : list Category) : bool :=
  match setItem_error (backing w) CategoryService.STORAGE_KEY (JSON_stringify cs) with
  | None => true
  | Some _ => false
  end.

(** ** References: what the local store does to its objects *)

(** The mutating methods of [CategoryService] on the heap of
    [References].  Whether the browser accepts the [setItem] of
    [updateCategories] is the argument [accepted]; the id and the dates a
    method obtains from the clock and the random source are arguments
    too. *)
Module ReferenceStore.
Import References.

(** [updateCategories(categories)]: [JSON.stringify] only reads the
    objects; the signal is set when [setItem] did not throw. *)
Definition updateCategories (accepted : bool) (a : ref) (s : Instance) : Instance :=
  if accepted then mkInstance (objects s) a else s.

(** [deleteCategory]: [filter] builds a new array in every case. *)
Definition deleteCategory (accepted : bool) (id0 : string) (s : Instance)
  : option (bool * Instance) :=
  currentCategories ← array_at (objects s) (categories s);
  let kept := List.filter (λ e, negb (has_id (objects s) id0 e)) currentCategories in
  let '(filteredCategories, h1) := alloc (ArrayObj kept) (objects s) in
  if length_of kept =? length_of currentCategories
  then Some (false, mkInstance h1 (signal s))
  else Some (true, updateCategories accepted filteredCategories
                     (mkInstance h1 (signal s))).

(** [clearAllCategories]: [this.updateCategories([])]. *)
Definition clearAllCategories (accepted : bool) (s : Instance) : Instance :=
  let '(a, h1) := alloc (ArrayObj []) (objects s) in
  updateCategories accepted a (mkInstance h1 (signal s)).

(** [createCategory]: two new [Date] objects, the new category object,
    and the new array [[...currentCategories, newCategory]].  The method
    returns the new category object itself. *)
Definition createCategory (accepted : bool) (newId : string)
    (dto : CreateCategoryDto) (created updated : Z) (s : Instance)
  : option (ref * Instance) :=
  let '(d1, h1) := alloc (DateObj created) (objects s) in
  let '(d2, h2) := alloc (DateObj updated) h1 in
  let '(newCategory, h3) :=
    alloc (CategoryObj (mkObject newId (c_name dto) (c_color dto)
                                 (c_backgroundColor dto) (c_icon dto) d1 d2)) h2 in
  currentCategories ← array_at h3 (categories s);
  let '(a, h4) := alloc (ArrayObj (currentCategories ++ [newCategory])) h3 in
  Some (newCategory, updateCategories accepted a (mkInstance h4 (signal s))).

(** [{...currentCategories[categoryIndex], ...updateCategoryDto,
      updatedAt: now}] on an object: the [createdAt] date is the one of the
    old object. *)
Definition spread_object (o : CategoryObject) (dto : UpdateCategoryDto) (now : ref)
  : CategoryObject :=
  mkObject (o_id o)
           (default (o_name o) (u_name dto))
           (default (o_color o) (u_color dto))
           (default (o_backgroundColor o) (u_backgroundColor dto))
           (default (o_icon o) (u_icon dto))
           (o_createdAt o) now.

(** [updateCategory]: a new [Date], the new category object and the new
    array built from the two slices.  The method returns the new category
    object itself, or [null]. *)
Definition updateCategory (accepted : bool) (id0 : string)
    (dto : UpdateCategoryDto) (now : Z) (s : Instance)
  : option (option ref * Instance) :=
  currentCategories ← array_at (objects s) (categories s);
  let categoryIndex := findIndex (has_id (objects s) id0) currentCategories in
  if categoryIndex =? -1 then Some (None, s)
  else
    e ← at_index currentCategories categoryIndex;
    match objects s !! e with
    | Some (CategoryObj o) =>
        let '(d, h1) := alloc (DateObj now) (objects s) in
        let '(updatedCategory, h2) := alloc (CategoryObj (spread_object o dto d)) h1 in
        let '(a, h3) :=
          alloc (ArrayObj (slice 0 categoryIndex currentCategories
                             ++ [updatedCategory]
                             ++ slice_from (categoryIndex + 1) currentCategories)) h2 in
        Some (Some updatedCategory,
              updateCategories accepted a (mkInstance h3 (signal s)))
    | _ => None
    end.

(** The operations, for sequences of them. *)
Inductive op :=
| Create (accepted : bool) (newId : string) (dto : CreateCategoryDto)
         (created updated : Z)
| Update (accepted : bool) (id0 : string) (dto : UpdateCategoryDto) (now : Z)
| Delete (accepted : bool) (id0 : string)
| Clear (accepted : bool).

(** The instance an operation leaves; an operation that is stuck on an
    ill-formed heap leaves the instance as it is. *)
Definition step (o : op) (s : Instance) : Instance :=
  match o with
  | Create accepted newId dto created updated =>
      from_option snd s (createCategory accepted newId dto created updated s)
  | Update accepted id0 dto now =>
      from_option snd s (updateCategory accepted id0 dto now s)
  | Delete accepted id0 => from_option snd s (deleteCategory accepted id0 s)
  | Clear accepted => clearAllCategories accepted s
  end.

Definition run (ops : list op) (s : Instance) : Instance :=
  foldl (λ s' o, step o s') s ops.

End ReferenceStore.

(** * Properties *)

(** ** Array methods *)

Section ArrayFacts.
Context {A : Type}.
Implicit Types (p : A → bool) (l : list A).

Lemma findIndex_from_range p i l :
  findIndex_from p i l = -1 ∨
  (i ≤ findIndex_from p i l < i + length_of l).
Proof.
  revert i; induction l as [|x l IH]; intros i; simpl; [by left|].
  unfold length_of; simpl length.
  destruct (p x); [right; lia|].
  destruct (IH (i + 1)) as [->|Hr]; [by left|right].
  unfold length_of in Hr. lia.
Qed.

Lemma findIndex_from_None p i l :
  0 ≤ i → findIndex_from p i l = -1 ↔ find p l = None.
Proof.
  revert i; induction l as [|x l IH]; intros i Hi; simpl; [done|].
  destruct (p x).
  - split; [lia|done].
  - apply IH. lia.
Qed.

Lemma findIndex_None p l : findIndex p l = -1 ↔ find p l = None.
Proof. by apply findIndex_from_None. Qed.

(** When [find] succeeds, [findIndex] is the position of the element
    found, and no earlier element satisfies the predicate. *)
Lemma find_Some_split p l x :
  find p l = Some x →
  ∃ before rest,
    l = before ++ x :: rest ∧ p x = true ∧
    Forall (λ y, p y = false) before ∧
    findIndex p l = length_of before.
Proof.
  unfold findIndex, length_of.
  assert (∀ i, find p l = Some x →
    ∃ before rest, l = before ++ x :: rest ∧ p x = true ∧
      Forall (λ y, p y = false) before ∧
      findIndex_from p i l = i + Z.of_nat (length before)) as Hgen.
  { induction l as [|y l IH]; intros i; simpl; [done|].
    destruct (p y) eqn:Hp.
    - intros [= ->]. exists [], l. simpl. repeat split; [done|constructor|lia].
    - intros Hf. destruct (IH (i + 1) Hf) as (b & r & -> & Hx & Hb & Hi).
      exists (y :: b), r. simpl length. repeat split; [done|by constructor|lia]. }
  intros Hf. destruct (Hgen 0 Hf) as (b & r & ? & ? & ? & ?).
  exists b, r. repeat split; [done..|lia].
Qed.

Lemma find_None_Forall p l :
  find p l = None ↔ Forall (λ y, p y = false) l.
Proof.
  induction l as [|y l IH]; simpl; [split; [constructor|done]|].
  destruct (p y) eqn:Hp.
  - split; [done|]. inversion 1; congruence.
  - rewrite IH. split; [by constructor|by inversion 1].
Qed.

Lemma filter_all p l :
  Forall (λ y, p y = true) l → List.filter p l = l.
Proof.
  induction 1 as [|y l Hy _ IH]; simpl; [done|]. by rewrite Hy, IH.
Qed.

Lemma filter_length_le p l : (length (List.filter p l) ≤ length l)%nat.
Proof.
  induction l as [|y l IH]; simpl; [done|]. destruct (p y); simpl; lia.
Qed.

Lemma filter_length_eq p l :
  length (List.filter p l) = length l ↔ Forall (λ y, p y = true) l.
Proof.
  split; [|intros Hall; by rewrite filter_all].
  induction l as [|y l IH]; simpl; [constructor|].
  pose proof (filter_length_le p l).
  destruct (p y) eqn:Hp; simpl; [|lia].
  intros [= Hl]. constructor; auto.
Qed.
End ArrayFacts.

(** ** Running the effects *)

Ltac eff_unfold :=
  unfold after, outcome,
    CategoryService.createCategory, CategoryService.updateCategory,
    CategoryService.deleteCategory, CategoryService.clearAllCategories,
    CategoryService.getCategoryById, CategoryService.getCategories,
    CategoryService.getCategoriesWithCount,
    CategoryService.categoryCount, CategoryService.categoryStats,
    CategoryService.generateId, CategoryService.constructor,
    CategoryService.loadCategories,
    CategoryService.localStorage_getItem, CategoryService.localStorage_setItem,
    FirebaseCategoryService.createCategory, FirebaseCategoryService.updateCategory,
    FirebaseCategoryService.deleteCategory, FirebaseCategoryService.getCategoryById,
    FirebaseCategoryService.getCategories,
    FirebaseCategoryService.getCategoriesWithCount,
    FirebaseCategoryService.categoryCount, FirebaseCategoryService.categoryStats,
    FirebaseCategoryService.constructor,
    FirebaseCategoryService.subscription_next,
    FirebaseCategoryService.subscription_error,
    FirebaseCategoryService.addDoc, FirebaseCategoryService.updateDoc,
    FirebaseCategoryService.deleteDoc,
    new_Date, Date_now, Math_random_suffix, categories, categoriesSignal_set,
    console_error, emit, get_backing, set_backing, throw, try_catch,
    mbind, Eff_bind, mret, Eff_ret.

Section IdFacts.
Implicit Types (cs : list Category) (x : string).

Lemma find_id_None cs x :
  find (λ c, String.eqb (id c) x) cs = None ↔ x ∉ map id cs.
Proof.
  rewrite find_None_Forall. induction cs as [|c cs IH]; simpl.
  - split; [intros _; apply not_elem_of_nil|constructor].
  - rewrite not_elem_of_cons, <- IH. split.
    + inversion 1 as [|? ? Hc Hcs]; subst. apply String.eqb_neq in Hc. done.
    + intros [Hc Hcs]. constructor; [|done]. apply String.eqb_neq. done.
Qed.

(** A category appended under an id not yet in the collection is the one
    the search by id finds. *)
Lemma find_id_last cs c :
  id c ∉ map id cs →
  find (λ c', String.eqb (id c') (id c)) (cs ++ [c]) = Some c.
Proof.
  induction cs as [|c0 cs IH]; simpl; intros Hfresh.
  - by rewrite String.eqb_refl.
  - apply not_elem_of_cons in Hfresh as [Hne Hfresh].
    apply not_eq_sym, String.eqb_neq in Hne. rewrite Hne. by apply IH.
Qed.

(** An id held in the collection splits it at the first category that
    carries the id; that category is the one [find] and [findIndex] reach. *)
Lemma find_id_present cs x :
  x ∈ map id cs →
  ∃ before c rest,
    cs = before ++ c :: rest ∧ id c = x ∧ (x ∉ map id before) ∧
    find (λ c', String.eqb (id c') x) cs = Some c ∧
    findIndex (λ c', String.eqb (id c') x) cs = length_of before.
Proof.
  intros Hin.
  destruct (find (λ c', String.eqb (id c') x) cs) as [c|] eqn:Hfind.
  - destruct (find_Some_split _ _ _ Hfind) as (before & rest & Hcs & Hc & Hb & Hi).
    exists before, c, rest. apply String.eqb_eq in Hc.
    repeat split; try done.
    by apply find_id_None, find_None_Forall.
  - by apply find_id_None in Hfind.
Qed.

(** Conversely, the first category carrying an id is what the searches
    by id reach. *)
Lemma find_id_first before c rest :
  id c ∉ map id before →
  find (λ c', String.eqb (id c') (id c)) (before ++ c :: rest) = Some c ∧
  findIndex (λ c', String.eqb (id c') (id c)) (before ++ c :: rest)
    = length_of before.
Proof.
  intros Hnot. unfold findIndex, length_of.
  assert (∀ i, findIndex_from (λ c', String.eqb (id c') (id c)) i
                 (before ++ c :: rest) = i + Z.of_nat (length before)) as Hidx.
  { induction before as [|c0 before IH]; intros i; simpl.
    - rewrite String.eqb_refl. lia.
    - apply not_elem_of_cons in Hnot as [Hne Hnot].
      apply not_eq_sym, String.eqb_neq in Hne. rewrite Hne.
      rewrite IH by done. lia. }
  split; [|by rewrite Hidx].
  induction before as [|c0 before IH]; simpl.
  - by rewrite String.eqb_refl.
  - apply not_elem_of_cons in Hnot as [Hne Hnot].
    apply not_eq_sym, String.eqb_neq in Hne. rewrite Hne. apply IH; [done|].
    intros i. specialize (Hidx (i - 1)). simpl in Hidx. rewrite Hne in Hidx.
    replace (i - 1 + 1) with i in Hidx by lia. rewrite Hidx. lia.
Qed.

(** With pairwise distinct ids, every category is the first one that
    carries its id. *)
Lemma distinct_ids_first before c rest :
  NoDup (map id (before ++ c :: rest)) → id c ∉ map id before.
Proof.
  rewrite map_app. simpl. intros (_ & Hdisj & _)%NoDup_app Hin.
  apply (Hdisj _ Hin). left.
Qed.

Lemma filter_other_ids cs x :
  x ∉ map id cs → List.filter (λ c, negb (String.eqb (id c) x)) cs = cs.
Proof.
  intros Hx%find_id_None%find_None_Forall. apply filter_all.
  eapply Forall_impl; [exact Hx|]. intros c Hc; simpl in Hc. by rewrite Hc.
Qed.

(** With pairwise distinct ids, filtering out the id of an element
    removes that element and nothing else. *)
Lemma filter_removes_one before c rest :
  NoDup (map id (before ++ c :: rest)) →
  List.filter (λ c', negb (String.eqb (id c') (id c))) (before ++ c :: rest)
  = before ++ rest.
Proof.
  intros Hnd. pose proof (distinct_ids_first _ _ _ Hnd) as Hbefore.
  rewrite map_app in Hnd. simpl in Hnd.
  apply NoDup_app in Hnd as (_ & _ & Hnd).
  apply NoDup_cons in Hnd as (Hc & _).
  rewrite List.filter_app. simpl. rewrite String.eqb_refl. simpl.
  by rewrite !filter_other_ids.
Qed.
End IdFacts.

(** ** The local store *)

Section Local.
Context `{Json}.
Import CategoryService.

Lemma updateCategories_run cs w :
  updateCategories cs w =
    (Returned tt,
     match setItem_error (backing w) STORAGE_KEY (JSON_stringify cs) with
     | None => written cs w
     | Some e => refused cs e w
     end).
Proof.
  unfold updateCategories. eff_unfold. simpl.
  destruct (setItem_error _ _ _); simpl; [|done].
  unfold refused. by rewrite <- app_assoc.
Qed.

(** The record [createCategory] builds in the world [w]: the id is made
    of the first clock reading and the next random suffix, the two
    timestamps are the second and the third reading. *)
Lemma createCategory_run dto w :
  ∃ c w1,
    c = {| id := pretty (clock w (reads w)) +:+ "-" +:+ random w (draws w);
           name := c_name dto; color := c_color dto;
           backgroundColor := c_backgroundColor dto; icon := c_icon dto;
           createdAt := clock w (S (reads w));
           updatedAt := clock w (S (S (reads w))) |} ∧
    w1 = mkWorld (categoriesSignal w) (backing w) (trace w)
                 (clock w) (S (S (S (reads w)))) (random w) (S (draws w)) ∧
    createCategory dto w =
      (Returned c,
       match setItem_error (backing w) STORAGE_KEY
               (JSON_stringify (categoriesSignal w ++ [c])) with
       | None => written (categoriesSignal w ++ [c]) w1
       | Some e => refused (categoriesSignal w ++ [c]) e w1
       end).
Proof.
  eexists; eexists; split; [reflexivity|split; [reflexivity|]].
  unfold createCategory, generateId.
  unfold new_Date, Date_now, Math_random_suffix, categories, mbind, Eff_bind,
    mret, Eff_ret. simpl.
  by rewrite updateCategories_run.
Qed.
End Local.

Section Slices.
Context {A : Type}.
Implicit Types (before rest : list A) (x : A).

Lemma at_index_middle before x rest :
  at_index (before ++ x :: rest) (length_of before) = Some x.
Proof.
  unfold at_index, length_of.
  destruct (Z.ltb_spec (Z.of_nat (length before)) 0) as [?|_]; [lia|].
  rewrite Nat2Z.id. by apply list_lookup_middle.
Qed.

Lemma slice_before before x rest :
  slice 0 (length_of before) (before ++ x :: rest) = before.
Proof.
  unfold slice, length_of. rewrite Nat2Z.id.
  change (Z.to_nat 0) with 0%nat. rewrite Nat.sub_0_r, drop_0.
  by rewrite take_app_length.
Qed.

Lemma slice_from_after before x rest :
  slice_from (length_of before + 1) (before ++ x :: rest) = rest.
Proof.
  unfold slice_from, length_of.
  replace (Z.to_nat (Z.of_nat (length before) + 1)) with (S (length before)) by lia.
  rewrite (cons_middle x), app_assoc.
  rewrite drop_app_length'; [done|].
  rewrite length_app. simpl. lia.
Qed.
End Slices.

Section LocalRuns.
Context `{Json}.
Import CategoryService.

Lemma updateCategory_absent id0 dto w :
  id0 ∉ map id (categoriesSignal w) →
  updateCategory id0 dto w = (Returned None, w).
Proof.
  intros Hid%find_id_None%findIndex_None.
  unfold updateCategory, categories, mbind, Eff_bind, mret, Eff_ret.
  simpl. by rewrite Hid.
Qed.

(** The update of the first category carrying the id: it sits between
    [before] and [rest], and [r] is what the spread builds from it. *)
Lemma updateCategory_run id0 dto w before c rest :
  categoriesSignal w = before ++ c :: rest →
  findIndex (λ c', String.eqb (id c') id0) (categoriesSignal w) = length_of before →
  let r := spread_update c dto (clock w (reads w)) in
  updateCategory id0 dto w =
    (Returned (Some r),
     match setItem_error (backing w) STORAGE_KEY
             (JSON_stringify (before ++ r :: rest)) with
     | None => written (before ++ r :: rest) (ticked w)
     | Some e => refused (before ++ r :: rest) e (ticked w)
     end).
Proof.
  intros Hcs Hidx r.
  unfold updateCategory, categories, new_Date, Date_now,
    mbind, Eff_bind, mret, Eff_ret. simpl.
  rewrite Hidx.
  destruct (Z.eqb_spec (length_of before) (-1)) as [Hneg|_].
  { unfold length_of in Hneg. lia. }
  rewrite Hcs, at_index_middle, slice_before, slice_from_after.
  rewrite updateCategories_run. simpl. fold r. reflexivity.
Qed.

Lemma deleteCategory_absent id0 w :
  id0 ∉ map id (categoriesSignal w) →
  deleteCategory id0 w = (Returned false, w).
Proof.
  intros Hid. unfold deleteCategory, categories, mbind, Eff_bind, mret, Eff_ret.
  simpl. rewrite filter_other_ids by done. by rewrite Z.eqb_refl.
Qed.

Lemma deleteCategory_run id0 w :
  id0 ∈ map id (categoriesSignal w) →
  let kept := List.filter (λ c, negb (String.eqb (id c) id0)) (categoriesSignal w) in
  deleteCategory id0 w =
    (Returned true,
     match setItem_error (backing w) STORAGE_KEY (JSON_stringify kept) with
     | None => written kept w
     | Some e => refused kept e w
     end).
Proof.
  intros Hid kept.
  unfold deleteCategory, categories, mbind, Eff_bind, mret, Eff_ret. simpl.
  fold kept.
  destruct (Z.eqb_spec (length_of kept) (length_of (categoriesSignal w)))
    as [Hlen|_].
  - exfalso. unfold length_of in Hlen. apply Nat2Z.inj in Hlen.
    apply filter_length_eq in Hlen.
    apply (proj1 (find_id_None (categoriesSignal w) id0)); [|done].
    apply find_None_Forall. eapply Forall_impl; [exact Hlen|].
    intros c Hc; simpl in Hc. by apply negb_true_iff in Hc.
  - rewrite updateCategories_run. done.
Qed.
End LocalRuns.

(** ** The remote store *)

Section RemoteRuns.
Import FirebaseCategoryService.
Implicit Types (w : World Firestore).

Lemma createCategory_acknowledged dto w key :
  addDoc_reply (backing w) COLLECTION (document_for dto) = inr key →
  createCategory dto w =
    (Returned {| id := key; name := c_name dto; color := c_color dto;
                 backgroundColor := c_backgroundColor dto; icon := c_icon dto;
                 createdAt := clock w (reads w);
                 updatedAt := clock w (S (reads w)) |},
     ticked (ticked (logged [AddDoc COLLECTION (document_for dto)] w))).
Proof.
  intros Hreply. unfold createCategory. eff_unfold. simpl.
  unfold document_for in Hreply. by rewrite Hreply.
Qed.

Lemma createCategory_rejected dto w e :
  addDoc_reply (backing w) COLLECTION (document_for dto) = inl e →
  createCategory dto w =
    (Threw e,
     logged [AddDoc COLLECTION (document_for dto);
             ConsoleError "Error al crear categoría en Firestore:" e] w).
Proof.
  intros Hreply. unfold createCategory. eff_unfold. simpl.
  unfold document_for in Hreply. rewrite Hreply. simpl.
  unfold logged. by rewrite <- app_assoc.
Qed.

Lemma remote_updateCategory_absent id0 dto w :
  id0 ∉ map id (categoriesSignal w) →
  updateCategory id0 dto w = (Returned None, w).
Proof.
  intros Hid%find_id_None. unfold updateCategory. eff_unfold. simpl.
  by rewrite Hid.
Qed.

Lemma updateCategory_acknowledged id0 dto w c :
  find (λ c', String.eqb (id c') id0) (categoriesSignal w) = Some c →
  updateDoc_reply (backing w) COLLECTION id0 (update_for dto) = None →
  updateCategory id0 dto w =
    (Returned (Some (spread_update c dto (clock w (reads w)))),
     ticked (logged [UpdateDoc COLLECTION id0 (update_for dto)] w)).
Proof.
  intros Hfind Hreply. unfold updateCategory. eff_unfold. simpl.
  rewrite Hfind. simpl. unfold update_for in Hreply. by rewrite Hreply.
Qed.

Lemma updateCategory_rejected id0 dto w c e :
  find (λ c', String.eqb (id c') id0) (categoriesSignal w) = Some c →
  updateDoc_reply (backing w) COLLECTION id0 (update_for dto) = Some e →
  updateCategory id0 dto w =
    (Threw e,
     logged [UpdateDoc COLLECTION id0 (update_for dto);
             ConsoleError "Error al actualizar categoría en Firestore:" e] w).
Proof.
  intros Hfind Hreply. unfold updateCategory. eff_unfold. simpl.
  rewrite Hfind. simpl. unfold update_for in Hreply. rewrite Hreply. simpl.
  unfold logged. by rewrite <- app_assoc.
Qed.

Lemma remote_deleteCategory_absent id0 w :
  id0 ∉ map id (categoriesSignal w) →
  deleteCategory id0 w = (Returned false, w).
Proof.
  intros Hid%find_id_None. unfold deleteCategory. eff_unfold. simpl.
  by rewrite Hid.
Qed.

Lemma deleteCategory_acknowledged id0 w c :
  find (λ c', String.eqb (id c') id0) (categoriesSignal w) = Some c →
  deleteDoc_reply (backing w) COLLECTION id0 = None →
  deleteCategory id0 w =
    (Returned true, logged [DeleteDoc COLLECTION id0] w).
Proof.
  intros Hfind Hreply. unfold deleteCategory. eff_unfold. simpl.
  rewrite Hfind. simpl. by rewrite Hreply.
Qed.

Lemma deleteCategory_rejected id0 w c e :
  find (λ c', String.eqb (id c') id0) (categoriesSignal w) = Some c →
  deleteDoc_reply (backing w) COLLECTION id0 = Some e →
  deleteCategory id0 w =
    (Threw e,
     logged [DeleteDoc COLLECTION id0;
             ConsoleError "Error al eliminar categoría en Firestore:" e] w).
Proof.
  intros Hfind Hreply. unfold deleteCategory. eff_unfold. simpl.
  rewrite Hfind. simpl. rewrite Hreply. simpl.
  unfold logged. by rewrite <- app_assoc.
Qed.
End RemoteRuns.

(** ** Failure of the backing-store write *)

Section WriteFailure.
Context `{Json}.

(** C1, as the code has it.  Remote store: when Firestore rejects the
    write of createCategory, updateCategory or deleteCategory, the
    operation logs the failure and re-raises it to its caller.  Local
    store: when the persistence write of one of the three operations
    throws, [updateCategories] logs the failure and does not re-raise it;
    the operation returns normally and the collection is left unchanged. *)
Theorem write_failure_handling :
  (∀ dto (w : World Firestore) e,
     addDoc_reply (backing w) FirebaseCategoryService.COLLECTION (document_for dto)
       = inl e →
     outcome (FirebaseCategoryService.createCategory dto) w = Threw e ∧
     trace (after (FirebaseCategoryService.createCategory dto) w)
       = trace w ++ [AddDoc FirebaseCategoryService.COLLECTION (document_for dto);
                    ConsoleError "Error al crear categoría en Firestore:" e]) ∧
  (∀ id0 dto (w : World Firestore) e,
     id0 ∈ map id (categoriesSignal w) →
     updateDoc_reply (backing w) FirebaseCategoryService.COLLECTION id0 (update_for dto)
       = Some e →
     outcome (FirebaseCategoryService.updateCategory id0 dto) w = Threw e ∧
     trace (after (FirebaseCategoryService.updateCategory id0 dto) w)
       = trace w ++ [UpdateDoc FirebaseCategoryService.COLLECTION id0 (update_for dto);
                    ConsoleError "Error al actualizar categoría en Firestore:" e]) ∧
  (∀ id0 (w : World Firestore) e,
     id0 ∈ map id (categoriesSignal w) →
     deleteDoc_reply (backing w) FirebaseCategoryService.COLLECTION id0 = Some e →
     outcome (FirebaseCategoryService.deleteCategory id0) w = Threw e ∧
     trace (after (FirebaseCategoryService.deleteCategory id0) w)
       = trace w ++ [DeleteDoc FirebaseCategoryService.COLLECTION id0;
                    ConsoleError "Error al eliminar categoría en Firestore:" e]) ∧
  (∀ dto (w : World Storage),
     ∃ c, outcome (CategoryService.createCategory dto) w = Returned c ∧
          ∀ e, setItem_error (backing w) CategoryService.STORAGE_KEY
                 (JSON_stringify (categoriesSignal w ++ [c])) = Some e →
               logged_and_swallowed w
                 (after (CategoryService.createCategory dto) w)
                 (categoriesSignal w ++ [c]) e) ∧
  (∀ dto (w : World Storage) before c rest,
     categoriesSignal w = before ++ c :: rest →
     id c ∉ map id before →
     ∃ r, outcome (CategoryService.updateCategory (id c) dto) w
            = Returned (Some r) ∧
          ∀ e, setItem_error (backing w) CategoryService.STORAGE_KEY
                 (JSON_stringify (before ++ r :: rest)) = Some e →
               logged_and_swallowed w
                 (after (CategoryService.updateCategory (id c) dto) w)
                 (before ++ r :: rest) e) ∧
  (∀ id0 (w : World Storage),
     id0 ∈ map id (categoriesSignal w) →
     let kept := List.filter (λ c, negb (String.eqb (id c) id0)) (categoriesSignal w) in
     outcome (CategoryService.deleteCategory id0) w = Returned true ∧
     ∀ e, setItem_error (backing w) CategoryService.STORAGE_KEY
            (JSON_stringify kept) = Some e →
          logged_and_swallowed w
            (after (CategoryService.deleteCategory id0) w) kept e).
Proof.
  repeat apply conj.
  - intros dto w e Hreply. unfold outcome, after.
    by rewrite (createCategory_rejected _ _ _ Hreply).
  - intros id0 dto w e (b0 & c & r0 & _ & _ & _ & Hfind & _)%find_id_present Hreply.
    unfold outcome, after.
    by rewrite (updateCategory_rejected _ _ _ _ _ Hfind Hreply).
  - intros id0 w e (b0 & c & r0 & _ & _ & _ & Hfind & _)%find_id_present Hreply.
    unfold outcome, after.
    by rewrite (deleteCategory_rejected _ _ _ _ Hfind Hreply).
  - intros dto w.
    destruct (createCategory_run dto w) as (c & w1 & Hc & Hw1 & Hrun).
    exists c. unfold outcome, after. rewrite Hrun. simpl. split; [done|].
    intros e ->. by rewrite Hw1.
  - intros dto w before c rest Hcs Hb.
    exists (spread_update c dto (clock w (reads w))).
    unfold outcome, after. rewrite (updateCategory_run _ dto _ _ _ _ Hcs).
    + simpl. split; [done|]. by intros e ->.
    + rewrite Hcs. by apply find_id_first.
  - intros id0 w Hin kept. unfold outcome, after.
    rewrite (deleteCategory_run _ _ Hin). simpl. fold kept.
    split; [done|]. by intros e ->.
Qed.
End WriteFailure.

(** The six cases of [write_failure_handling], run on sample worlds: a
    Firestore that rejects every write, and a storage whose quota is
    exceeded. *)
Lemma write_failure_handling_witness :
  let rw := sample_world rejecting_firestore ticking_clock [cat_a; cat_b; cat_c] in
  let lw := sample_world full_storage ticking_clock [cat_a; cat_b; cat_c] in
  outcome (FirebaseCategoryService.createCategory work_dto) rw
    = Threw permission_denied ∧
  outcome (FirebaseCategoryService.updateCategory "b" job_dto) rw
    = Threw permission_denied ∧
  outcome (FirebaseCategoryService.deleteCategory "b") rw
    = Threw permission_denied ∧
  (∃ c, outcome (CategoryService.createCategory (H:=sample_json) work_dto) lw
          = Returned c ∧
        logged_and_swallowed (H:=sample_json) lw
          (after (CategoryService.createCategory (H:=sample_json) work_dto) lw)
          ([cat_a; cat_b; cat_c] ++ [c]) quota_exceeded) ∧
  (∃ r, outcome (CategoryService.updateCategory (H:=sample_json) "b" job_dto) lw
          = Returned (Some r) ∧
        logged_and_swallowed (H:=sample_json) lw
          (after (CategoryService.updateCategory (H:=sample_json) "b" job_dto) lw)
          [cat_a; r; cat_c] quota_exceeded) ∧
  (outcome (CategoryService.deleteCategory (H:=sample_json) "b") lw = Returned true ∧
   logged_and_swallowed (H:=sample_json) lw
     (after (CategoryService.deleteCategory (H:=sample_json) "b") lw)
     [cat_a; cat_c] quota_exceeded).
Proof.
  intros rw lw.
  destruct (write_failure_handling (H:=sample_json))
    as (Hrc & Hru & Hrd & Hlc & Hlu & Hld).
  assert ("b" ∈ map id [cat_a; cat_b; cat_c]) as Hb
    by (apply list_elem_of_further, list_elem_of_here).
  split; [|split; [|split; [|split; [|split]]]].
  - apply (Hrc work_dto rw permission_denied). reflexivity.
  - apply (Hru "b" job_dto rw permission_denied); [exact Hb|reflexivity].
  - apply (Hrd "b" rw permission_denied); [exact Hb|reflexivity].
  - destruct (Hlc work_dto lw) as (c & Hc & Hfail). exists c. split; [exact Hc|].
    apply (Hfail quota_exceeded). reflexivity.
  - destruct (Hlu job_dto lw [cat_a] cat_b [cat_c]) as (r & Hr & Hfail);
      [reflexivity|by intros [=]%list_elem_of_singleton|].
    exists r. split; [exact Hr|]. apply (Hfail quota_exceeded). reflexivity.
  - destruct (Hld "b" lw Hb) as [Hout Hfail]. split; [exact Hout|].
    apply (Hfail quota_exceeded). reflexivity.
Defined.

(** C1 fails for the local store: with the storage quota exceeded, the
    write attempted by createCategory throws, the failure is logged, and
    createCategory returns the new category instead of re-raising. *)
Lemma local_write_failure_is_not_raised :
  let w := sample_world full_storage ticking_clock [] in
  setItem_error (backing w) CategoryService.STORAGE_KEY "[1000-k3j9x0q1z]"
    = Some quota_exceeded ∧
  CategoryService.createCategory (H:=sample_json) work_dto w
    = (Returned
         (mkCategory "1000-k3j9x0q1z" "Work" "#fff" "#000" "briefcase" 1001 1002),
       mkWorld [] full_storage
         [SetItem "categories" "[1000-k3j9x0q1z]";
          ConsoleError "Error al guardar las categorías:" quota_exceeded]
         ticking_clock 3%nat (λ _, "k3j9x0q1z") 1%nat) ∧
  ∀ e, outcome (CategoryService.createCategory (H:=sample_json) work_dto) w ≠ Threw e.
Proof.
  intros w. repeat apply conj; [reflexivity|reflexivity|].
  intros e. vm_compute. discriminate.
Qed.

(** ** Creation in the local store *)

Section LocalCreate.
Context `{Json}.
Import CategoryService.

Lemma append_empty (s1 s2 : string) : s1 +:+ s2 = "" → s1 = "" ∧ s2 = "".
Proof.
  destruct s1 as [|a s1]; [done|]. intros Heq.
  change (String a (s1 +:+ s2) = "") in Heq. done.
Qed.

(** The hyphen alone makes a generated id non-empty. *)
Lemma id_not_empty (now : Z) (suffix : string) :
  pretty now +:+ "-" +:+ suffix ≠ "".
Proof. intros [_ [[=] _]%append_empty]%append_empty. Qed.

(** C2, as the code has it: createCategory returns a category with the
    DTO's four fields and an id that is not empty; its two timestamps are
    two successive readings of the clock, hence equal when the clock does
    not advance between them; and when the persistence write is accepted
    and the generated id is not yet in the store, getCategoryById with
    that id returns the created record. *)
Theorem createCategory_round_trip (dto : CreateCategoryDto) (w : World Storage) :
  ∃ c, outcome (createCategory dto) w = Returned c ∧
       name c = c_name dto ∧ color c = c_color dto ∧
       backgroundColor c = c_backgroundColor dto ∧ icon c = c_icon dto ∧
       id c ≠ "" ∧
       createdAt c = clock w (S (reads w)) ∧
       updatedAt c = clock w (S (S (reads w))) ∧
       (clock w (S (reads w)) = clock w (S (S (reads w))) →
        createdAt c = updatedAt c) ∧
       (persists w (categoriesSignal w ++ [c]) →
        id c ∉ map id (categoriesSignal w) →
        outcome (getCategoryById (id c)) (after (createCategory dto) w)
        = Returned (Some c)).
Proof.
  destruct (createCategory_run dto w) as (c & w1 & Hc & Hw1 & Hrun).
  exists c. unfold outcome, after. rewrite Hrun. simpl.
  assert (id c = pretty (clock w (reads w)) +:+ "-" +:+ random w (draws w))
    as Hid by (by rewrite Hc).
  repeat split; try (by rewrite Hc).
  - rewrite Hid. apply id_not_empty.
  - unfold persists. intros Hok Hfresh. rewrite Hok.
    unfold getCategoryById, categories, mbind, Eff_bind, mret, Eff_ret. simpl.
    f_equal. by apply find_id_last.
Qed.
End LocalCreate.

(** [createCategory_round_trip] on a store that accepts the write, with a
    clock that stands still and an id that is new to the store. *)
Lemma createCategory_round_trip_witness :
  let w := sample_world empty_storage still_clock [cat_a; cat_b; cat_c] in
  ∃ c, outcome (CategoryService.createCategory (H:=sample_json) work_dto) w
         = Returned c ∧
       createdAt c = updatedAt c ∧
       outcome (CategoryService.getCategoryById (id c))
               (after (CategoryService.createCategory (H:=sample_json) work_dto) w)
         = Returned (Some c).
Proof.
  intros w.
  destruct (createCategory_round_trip (H:=sample_json) work_dto w)
    as (c & Hout & _ & _ & _ & _ & _ & _ & _ & Hsame & Hfound).
  exists c. split; [exact Hout|]. split; [apply Hsame; reflexivity|].
  apply Hfound; [reflexivity|].
  injection Hout as <-. apply (bool_decide_unpack _). vm_compute. exact I.
Defined.

(** C2 fails in three ways.  In a store whose storage quota is exceeded and
    whose clock advances at every reading, the two timestamps of the created
    category differ and getCategoryById does not find its id afterwards.
    In a store that already holds the id about to be generated, the new id
    is not distinct from the ids of the store, and getCategoryById returns
    the older record. *)
Lemma create_round_trip_can_fail :
  let created := mkCategory "1000-k3j9x0q1z" "Work" "#fff" "#000" "briefcase" 1001 1002 in
  let full := sample_world full_storage ticking_clock [] in
  let older := mkCategory "1000-k3j9x0q1z" "Home" "#111" "#eee" "home" 1000 1000 in
  let taken := sample_world empty_storage ticking_clock [older] in
  (outcome (CategoryService.createCategory (H:=sample_json) work_dto) full
     = Returned created ∧
   createdAt created ≠ updatedAt created ∧
   outcome (CategoryService.getCategoryById (id created))
           (after (CategoryService.createCategory (H:=sample_json) work_dto) full)
     = Returned None) ∧
  (outcome (CategoryService.createCategory (H:=sample_json) work_dto) taken
     = Returned created ∧
   id created ∈ map id (categoriesSignal taken) ∧
   outcome (CategoryService.getCategoryById (id created))
           (after (CategoryService.createCategory (H:=sample_json) work_dto) taken)
     = Returned (Some older) ∧
   older ≠ created).
Proof.
  intros created full older taken.
  split; repeat apply conj; try reflexivity; try discriminate.
  apply list_elem_of_here.
Qed.

(** ** Updates *)

Section Update.
Context `{Json}.

Lemma spread_update_merged c dto now : merged c dto (spread_update c dto now).
Proof.
  unfold merged, replaced_or_kept, spread_update. simpl.
  repeat split; by destruct dto as [[?|] [?|] [?|] [?|]].
Qed.

(** C3, as the code has it.  Let [c] be the first category of the
    collection that carries its id (any category, when ids are distinct).
    updateCategory returns a record in which exactly the fields the DTO
    defines are replaced by the DTO's values, id and createdAt are those
    of [c], and updatedAt is the current reading of the clock -- strictly
    greater than the prior updatedAt when the clock reads later than it.
    Local store: when the persistence write is accepted, the record
    replaces [c] at its position and the collection is stored.  Remote
    store: when Firestore acknowledges the write, the DTO's fields and a
    server timestamp were sent for the document, and the cached
    collection is not changed by the call. *)
Theorem updateCategory_merges_defined_fields :
  (∀ dto (w : World Storage) before c rest,
     categoriesSignal w = before ++ c :: rest →
     id c ∉ map id before →
     ∃ r, outcome (CategoryService.updateCategory (id c) dto) w
            = Returned (Some r) ∧
          merged c dto r ∧
          updatedAt r = clock w (reads w) ∧
          (updatedAt c < clock w (reads w) → updatedAt c < updatedAt r) ∧
          (persists w (before ++ r :: rest) →
           let w' := after (CategoryService.updateCategory (id c) dto) w in
           categoriesSignal w' = before ++ r :: rest ∧
           items (backing w') !! CategoryService.STORAGE_KEY
             = Some (JSON_stringify (before ++ r :: rest)))) ∧
  (∀ dto (w : World Firestore) before c rest,
     categoriesSignal w = before ++ c :: rest →
     id c ∉ map id before →
     updateDoc_reply (backing w) FirebaseCategoryService.COLLECTION (id c)
       (update_for dto) = None →
     ∃ r, outcome (FirebaseCategoryService.updateCategory (id c) dto) w
            = Returned (Some r) ∧
          merged c dto r ∧
          updatedAt r = clock w (reads w) ∧
          (updatedAt c < clock w (reads w) → updatedAt c < updatedAt r) ∧
          let w' := after (FirebaseCategoryService.updateCategory (id c) dto) w in
          trace w' = trace w ++ [UpdateDoc FirebaseCategoryService.COLLECTION
                                   (id c) (update_for dto)] ∧
          categoriesSignal w' = categoriesSignal w).
Proof.
  split.
  - intros dto w before c rest Hcs Hb.
    exists (spread_update c dto (clock w (reads w))).
    unfold outcome, after. rewrite (updateCategory_run _ dto _ _ _ _ Hcs).
    2: { rewrite Hcs. by apply find_id_first. }
    simpl. split; [done|]. split; [apply spread_update_merged|].
    split; [done|]. split; [done|].
    unfold persists. intros ->. simpl. split; [done|].
    apply lookup_insert_eq.
  - intros dto w before c rest Hcs Hb Hreply.
    exists (spread_update c dto (clock w (reads w))).
    unfold outcome, after.
    rewrite (updateCategory_acknowledged (id c) dto w c); [|
      rewrite Hcs; by apply find_id_first | done].
    simpl. split; [done|]. split; [apply spread_update_merged|]. done.
Qed.
End Update.

(** The two cases of [updateCategory_merges_defined_fields] on the example
    of the specification: the category "Work" renamed to "Job". *)
Lemma updateCategory_merges_defined_fields_witness :
  let lw := sample_world empty_storage ticking_clock [cat_a; cat_b; cat_c] in
  let rw := sample_world accepting_firestore ticking_clock [cat_a; cat_b; cat_c] in
  (∃ r, outcome (CategoryService.updateCategory (H:=sample_json) "b" job_dto) lw
          = Returned (Some r) ∧
        merged cat_b job_dto r ∧ updatedAt cat_b < updatedAt r ∧
        categoriesSignal
          (after (CategoryService.updateCategory (H:=sample_json) "b" job_dto) lw)
          = [cat_a; r; cat_c]) ∧
  (∃ r, outcome (FirebaseCategoryService.updateCategory "b" job_dto) rw
          = Returned (Some r) ∧
        merged cat_b job_dto r ∧ updatedAt cat_b < updatedAt r ∧
        categoriesSignal (after (FirebaseCategoryService.updateCategory "b" job_dto) rw)
          = [cat_a; cat_b; cat_c]).
Proof.
  intros lw rw.
  destruct (updateCategory_merges_defined_fields (H:=sample_json)) as [Hl Hr].
  split.
  - destruct (Hl job_dto lw [cat_a] cat_b [cat_c])
      as (r & Hout & Hm & Ht & Hlt & Hstore);
      [reflexivity|by intros [=]%list_elem_of_singleton|].
    exists r. split; [exact Hout|]. split; [exact Hm|].
    split; [apply Hlt; reflexivity|]. apply Hstore. reflexivity.
  - destruct (Hr job_dto rw [cat_a] cat_b [cat_c])
      as (r & Hout & Hm & Ht & Hlt & Htr & Hcs);
      [reflexivity|by intros [=]%list_elem_of_singleton|reflexivity|].
    exists r. split; [exact Hout|]. split; [exact Hm|].
    split; [apply Hlt; reflexivity|]. exact Hcs.
Defined.

(** C3 fails on the strict increase of updatedAt: a category updated
    within the millisecond of its creation gets the same updatedAt again. *)
Lemma update_within_the_same_millisecond :
  let w0 := sample_world empty_storage still_clock [] in
  let created := mkCategory "1000-k3j9x0q1z" "Work" "#fff" "#000" "briefcase" 1000 1000 in
  let updated := mkCategory "1000-k3j9x0q1z" "Job" "#fff" "#000" "briefcase" 1000 1000 in
  let w1 := after (CategoryService.createCategory (H:=sample_json) work_dto) w0 in
  outcome (CategoryService.createCategory (H:=sample_json) work_dto) w0
    = Returned created ∧
  categoriesSignal w1 = [created] ∧
  outcome (CategoryService.updateCategory (H:=sample_json) "1000-k3j9x0q1z" job_dto) w1
    = Returned (Some updated) ∧
  ¬ (updatedAt created < updatedAt updated).
Proof.
  intros w0 created updated w1.
  repeat apply conj; [reflexivity..|]. simpl. lia.
Qed.

(** ** Unknown ids *)

Section NotFound.
Context `{Json}.

(** C4: for an id that no category of the current collection carries,
    updateCategory returns null and deleteCategory returns false in both
    stores, and the world is left exactly as it was: nothing is added to
    the trace (no persistence write, no remote call, no diagnostic), no
    error is thrown, and the collection is unchanged. *)
Theorem unknown_id_changes_nothing (id0 : string) :
  (∀ dto (w : World Storage),
     id0 ∉ map id (categoriesSignal w) →
     CategoryService.updateCategory id0 dto w = (Returned None, w)) ∧
  (∀ (w : World Storage),
     id0 ∉ map id (categoriesSignal w) →
     CategoryService.deleteCategory id0 w = (Returned false, w)) ∧
  (∀ dto (w : World Firestore),
     id0 ∉ map id (categoriesSignal w) →
     FirebaseCategoryService.updateCategory id0 dto w = (Returned None, w)) ∧
  (∀ (w : World Firestore),
     id0 ∉ map id (categoriesSignal w) →
     FirebaseCategoryService.deleteCategory id0 w = (Returned false, w)).
Proof.
  repeat apply conj.
  - intros dto w. apply updateCategory_absent.
  - intros w. apply deleteCategory_absent.
  - intros dto w. apply remote_updateCategory_absent.
  - intros w. apply remote_deleteCategory_absent.
Qed.
End NotFound.

(** [unknown_id_changes_nothing] on a collection that does not hold the id
    "zzz". *)
Lemma unknown_id_changes_nothing_witness :
  let lw := sample_world empty_storage ticking_clock [cat_a; cat_b; cat_c] in
  let rw := sample_world accepting_firestore ticking_clock [cat_a; cat_b; cat_c] in
  CategoryService.updateCategory (H:=sample_json) "zzz" job_dto lw = (Returned None, lw) ∧
  CategoryService.deleteCategory (H:=sample_json) "zzz" lw = (Returned false, lw) ∧
  FirebaseCategoryService.updateCategory "zzz" job_dto rw = (Returned None, rw) ∧
  FirebaseCategoryService.deleteCategory "zzz" rw = (Returned false, rw).
Proof.
  intros lw rw.
  assert ("zzz" ∉ map id [cat_a; cat_b; cat_c]) as Hz.
  { simpl. rewrite !not_elem_of_cons. repeat split; try discriminate.
    apply not_elem_of_nil. }
  destruct (unknown_id_changes_nothing (H:=sample_json) "zzz")
    as (Hlu & Hld & Hru & Hrd).
  split; [|split; [|split]].
  - apply (Hlu job_dto lw Hz).
  - apply (Hld lw Hz).
  - apply (Hru job_dto rw Hz).
  - apply (Hrd rw Hz).
Defined.

(** ** Count and statistics *)

Section Stats.
Context `{Json}.

Lemma local_consistent (w : World Storage) :
  consistent (outcome CategoryService.getCategories w)
             (outcome CategoryService.categoryCount w)
             (outcome CategoryService.categoryStats w).
Proof.
  exists (categoriesSignal w), (length_of (categoriesSignal w)),
    {| total := length_of (categoriesSignal w); withTasks := 0;
       empty := length_of (categoriesSignal w) |}.
  by repeat split.
Qed.

Lemma remote_consistent (w : World Firestore) :
  consistent (outcome FirebaseCategoryService.getCategories w)
             (outcome FirebaseCategoryService.categoryCount w)
             (outcome FirebaseCategoryService.categoryStats w).
Proof.
  exists (categoriesSignal w), (length_of (categoriesSignal w)),
    {| total := length_of (categoriesSignal w); withTasks := 0;
       empty := length_of (categoriesSignal w) |}.
  by repeat split.
Qed.

(** C5: in every reachable state of either store -- after construction
    and any sequence of create, update, delete and clear operations, and
    for the remote store any deliveries and failures of the subscription
    -- categoryCount is the length of the categories snapshot,
    categoryStats.total is categoryCount, categoryStats.withTasks is 0 and
    categoryStats.empty is categoryStats.total. *)
Theorem count_and_stats_follow_the_snapshot :
  (∀ w : World Storage,
     local_reachable w →
     consistent (outcome CategoryService.getCategories w)
                (outcome CategoryService.categoryCount w)
                (outcome CategoryService.categoryStats w)) ∧
  (∀ w : World Firestore,
     remote_reachable w →
     consistent (outcome FirebaseCategoryService.getCategories w)
                (outcome FirebaseCategoryService.categoryCount w)
                (outcome FirebaseCategoryService.categoryStats w)).
Proof.
  split.
  - induction 1 as [w0|op w _ _]; apply local_consistent.
  - induction 1 as [w0|op w _ _]; apply remote_consistent.
Qed.
End Stats.

(** [count_and_stats_follow_the_snapshot] on two reachable states: a local
    store after a creation and a deletion of an unknown id, and a remote
    store after a delivery of two documents and a rejected creation. *)
Lemma count_and_stats_follow_the_snapshot_witness :
  let lw := local_step (H:=sample_json) (LDelete "zzz")
              (local_step (H:=sample_json) (LCreate work_dto)
                 (after (CategoryService.constructor (H:=sample_json))
                    (sample_world corrupt_storage ticking_clock []))) in
  let rw := remote_step (RCreate work_dto)
              (remote_step
                 (RNext [mkDocument "a" "Home" "#111" "#eee" "home" (Some 10) None;
                         mkDocument "b" "Work" "#fff" "#000" "briefcase" None None])
                 (after FirebaseCategoryService.constructor
                    (sample_world rejecting_firestore ticking_clock []))) in
  (outcome (CategoryService.categoryCount) lw = Returned 1 ∧
   consistent (outcome (CategoryService.getCategories) lw)
              (outcome (CategoryService.categoryCount) lw)
              (outcome (CategoryService.categoryStats) lw)) ∧
  (outcome FirebaseCategoryService.categoryCount rw = Returned 2 ∧
   consistent (outcome FirebaseCategoryService.getCategories rw)
              (outcome FirebaseCategoryService.categoryCount rw)
              (outcome FirebaseCategoryService.categoryStats rw)).
Proof.
  intros lw rw.
  destruct (count_and_stats_follow_the_snapshot (H:=sample_json)) as [Hl Hr].
  split; (split; [reflexivity|]).
  - apply (Hl lw). do 2 apply local_operated. apply local_constructed.
  - apply (Hr rw). do 2 apply remote_operated. apply remote_constructed.
Defined.

(** ** Deletion in the local store *)

Section Delete.
Context `{Json}.
Import CategoryService.

Lemma written_collection cs (w : World Storage) :
  categoriesSignal (written cs w) = cs.
Proof. done. Qed.

(** Deletion with an accepted write.  In a local store whose categories
    have pairwise distinct ids, deleting the id of a category of the
    collection returns true; and when the persistence write is accepted,
    the resulting collection is the prior one without that single element,
    the others keeping their order, and getCategoryById no longer finds
    the id.  This is what the docstring of deleteCategory promises
    (l.110-114): true when the category was deleted. *)
Theorem deleteCategory_removes_exactly_one (w : World Storage) before c rest :
  categoriesSignal w = before ++ c :: rest →
  NoDup (map id (categoriesSignal w)) →
  outcome (deleteCategory (id c)) w = Returned true ∧
  (persists w (before ++ rest) →
   let w' := after (deleteCategory (id c)) w in
   categoriesSignal w' = before ++ rest ∧
   outcome (getCategoryById (id c)) w' = Returned None).
Proof.
  intros Hcs Hnd. unfold outcome, after.
  rewrite (deleteCategory_run (id c) w).
  2: { rewrite Hcs, map_app. simpl. set_solver. }
  simpl. split; [done|].
  rewrite Hcs in Hnd |- *.
  rewrite (filter_removes_one _ _ _ Hnd).
  unfold persists. intros ->. rewrite written_collection. split; [done|].
  unfold getCategoryById, categories, mbind, Eff_bind, mret, Eff_ret. simpl.
  f_equal. apply find_id_None.
  rewrite map_app in Hnd |- *. simpl in Hnd.
  apply NoDup_app in Hnd as (_ & Hdisj & Hnd).
  apply NoDup_cons in Hnd as (Hc & _).
  rewrite elem_of_app. intros [Hin|Hin]; [|done].
  apply (Hdisj _ Hin). left.
Qed.
End Delete.

(** [deleteCategory_removes_exactly_one] on the example of the
    specification: of three categories, the second is deleted. *)
Lemma deleteCategory_removes_exactly_one_witness :
  let w := sample_world empty_storage ticking_clock [cat_a; cat_b; cat_c] in
  let w' := after (CategoryService.deleteCategory (H:=sample_json) "b") w in
  outcome (CategoryService.deleteCategory (H:=sample_json) "b") w = Returned true ∧
  categoriesSignal w' = [cat_a; cat_c] ∧
  outcome (CategoryService.getCategoryById "b") w' = Returned None.
Proof.
  intros w w'.
  destruct (deleteCategory_removes_exactly_one (H:=sample_json) w [cat_a] cat_b [cat_c])
    as [Hout Hrest].
  - reflexivity.
  - apply (bool_decide_unpack _). vm_compute. exact I.
  - split; [exact Hout|]. apply Hrest. reflexivity.
Defined.

(** C6.  deleteCategory breaks its own contract when the persistence
    write throws.  Its docstring promises true when the category was
    deleted (l.110-114), and on an accepted write it keeps the promise
    ([deleteCategory_removes_exactly_one]).  But updateCategories
    (l.175-182) logs and swallows the error of a refused write, before the
    signal is set, and deleteCategory compares lengths of two local arrays
    only (l.116-125): on three categories with distinct ids and a storage
    that refuses the write, deleteCategory("b") returns true, yet nothing
    was deleted: the collection is the prior one, getCategoryById("b")
    still finds the category, and the only trace is the attempted write
    and the logged error. *)
Lemma delete_with_refused_write_removes_nothing :
  let w := sample_world full_storage ticking_clock [cat_a; cat_b; cat_c] in
  let w' := after (CategoryService.deleteCategory (H:=sample_json) "b") w in
  NoDup (map id (categoriesSignal w)) ∧
  outcome (CategoryService.deleteCategory (H:=sample_json) "b") w = Returned true ∧
  categoriesSignal w' = [cat_a; cat_b; cat_c] ∧
  categoriesSignal w' ≠ [cat_a; cat_c] ∧
  outcome (CategoryService.getCategoryById "b") w' = Returned (Some cat_b) ∧
  trace w' = [SetItem "categories" "[a,c]";
              ConsoleError "Error al guardar las categorías:" quota_exceeded].
Proof.
  intros w w'. split.
  { apply (bool_decide_unpack _). vm_compute. exact I. }
  repeat apply conj; try reflexivity. discriminate.
Qed.

(** ** Categories with their task counts *)

Section Counts.
Lemma count_or_zero_default (taskCounts : gmap string Z) (key : string) :
  count_or_zero taskCounts key = default 0 (taskCounts !! key).
Proof.
  unfold count_or_zero. destruct (taskCounts !! key) as [n|]; simpl; [|done].
  destruct (Z.eqb_spec n 0); congruence.
Qed.

Lemma map_with_count_counted (taskCounts : gmap string Z) (cs : list Category) :
  counted taskCounts cs (map (with_count taskCounts) cs).
Proof.
  split; [apply length_map|].
  intros i c Hi. exists (with_count taskCounts c).
  split; [|split; [done|apply count_or_zero_default]].
  change (map (with_count taskCounts) cs) with (with_count taskCounts <$> cs).
  by rewrite list_lookup_fmap, Hi.
Qed.

(** C7: for every current snapshot and every taskCounts mapping,
    getCategoriesWithCount returns one CategoryWithCount per category, in
    snapshot order, with the category unchanged and taskCount the
    mapping's value for the category's id, or 0 when the id is absent from
    the mapping; and it leaves the world as it found it (no persistence
    access, no change of state), in both stores. *)
Theorem getCategoriesWithCount_counts_the_snapshot (taskCounts : gmap string Z) :
  (∀ w : World Storage,
     ∃ result,
       CategoryService.getCategoriesWithCount taskCounts w = (Returned result, w) ∧
       counted taskCounts (categoriesSignal w) result) ∧
  (∀ w : World Firestore,
     ∃ result,
       FirebaseCategoryService.getCategoriesWithCount taskCounts w
         = (Returned result, w) ∧
       counted taskCounts (categoriesSignal w) result).
Proof.
  split; intros w; exists (map (with_count taskCounts) (categoriesSignal w));
    (split; [done|apply map_with_count_counted]).
Qed.
End Counts.

(** [getCategoriesWithCount_counts_the_snapshot] on the example of the
    specification: ids a, b, c and the mapping {a: 3, c: 5} give the counts
    3, 0, 5. *)
Lemma getCategoriesWithCount_counts_the_snapshot_witness :
  let taskCounts : gmap string Z := {[ "a" := 3; "c" := 5 ]} in
  let w := sample_world empty_storage ticking_clock [cat_a; cat_b; cat_c] in
  ∃ result,
    CategoryService.getCategoriesWithCount taskCounts w = (Returned result, w) ∧
    result = [mkCounted cat_a 3; mkCounted cat_b 0; mkCounted cat_c 5] ∧
    (∃ cc, result !! 2%nat = Some cc ∧ category cc = cat_c ∧ taskCount cc = 5).
Proof.
  intros taskCounts w.
  destruct (getCategoriesWithCount_counts_the_snapshot taskCounts)
    as [Hl _].
  destruct (Hl w) as (result & Hrun & Hlen & Hcounted).
  exists result. split; [exact Hrun|]. split.
  - injection Hrun as <-. reflexivity.
  - apply (Hcounted 2%nat cat_c). reflexivity.
Defined.

(** ** Construction of the local store *)

Section Load.
Context `{Json}.
Import CategoryService.

(** C8: constructing the local store never raises an error.  When no
    value is stored under the key "categories" the collection is left
    empty and nothing is logged; when reading the stored value throws, or
    parsing it throws, the error is logged and the collection is set to
    empty. *)
Theorem construction_tolerates_load_failures (w : World Storage) :
  let w' := after constructor w in
  outcome constructor w = Returned tt ∧
  (getItem_error (backing w) STORAGE_KEY = None →
   items (backing w) !! STORAGE_KEY = None →
   categoriesSignal w' = [] ∧
   trace w' = trace w ++ [GetItem STORAGE_KEY]) ∧
  (∀ e, getItem_error (backing w) STORAGE_KEY = Some e →
        categoriesSignal w' = [] ∧
        trace w' = trace w ++ [GetItem STORAGE_KEY;
                               ConsoleError "Error al cargar las categorías:" e]) ∧
  (∀ text e,
     getItem_error (backing w) STORAGE_KEY = None →
     items (backing w) !! STORAGE_KEY = Some text →
     JSON_parse text = inl e →
     categoriesSignal w' = [] ∧
     (text ≠ "" →
      trace w' = trace w ++ [GetItem STORAGE_KEY;
                             ConsoleError "Error al cargar las categorías:" e])).
Proof.
  intros w'. subst w'. unfold outcome, after, constructor, loadCategories.
  eff_unfold. simpl. repeat apply conj.
  - destruct (getItem_error _ _); simpl; [done|].
    destruct (items _ !! _) as [[|a text]|]; simpl; try done.
    by destruct (JSON_parse _).
  - intros -> ->. done.
  - intros e ->. simpl. by rewrite <- app_assoc.
  - intros text e -> -> Hparse. simpl.
    destruct text as [|a text]; simpl; [done|].
    rewrite Hparse. simpl. split; [done|]. intros _. by rewrite <- app_assoc.
Qed.
End Load.

(** [construction_tolerates_load_failures] on three storages: an empty one,
    one that cannot be read, and one holding text that does not parse. *)
Lemma construction_tolerates_load_failures_witness :
  let absent := sample_world empty_storage ticking_clock [cat_a] in
  let blocked := sample_world blocked_storage ticking_clock [cat_a] in
  let corrupt := sample_world corrupt_storage ticking_clock [cat_a] in
  categoriesSignal (after (CategoryService.constructor (H:=sample_json)) absent) = [] ∧
  categoriesSignal (after (CategoryService.constructor (H:=sample_json)) blocked) = [] ∧
  categoriesSignal (after (CategoryService.constructor (H:=sample_json)) corrupt) = [] ∧
  trace (after (CategoryService.constructor (H:=sample_json)) corrupt)
    = [GetItem "categories";
       ConsoleError "Error al cargar las categorías:"
         (mkError "SyntaxError" "Unexpected token")].
Proof.
  intros absent blocked corrupt.
  destruct (construction_tolerates_load_failures (H:=sample_json) absent)
    as (_ & Habsent & _ & _).
  destruct (construction_tolerates_load_failures (H:=sample_json) blocked)
    as (_ & _ & Hblocked & _).
  destruct (construction_tolerates_load_failures (H:=sample_json) corrupt)
    as (_ & _ & _ & Hcorrupt).
  split; [|split; [|split]].
  - apply Habsent; reflexivity.
  - apply (Hblocked (mkError "SecurityError" "The operation is insecure.")).
    reflexivity.
  - apply (Hcorrupt "{oops" (mkError "SyntaxError" "Unexpected token"));
      reflexivity.
  - apply (Hcorrupt "{oops" (mkError "SyntaxError" "Unexpected token"));
      [reflexivity..|discriminate].
Defined.

(** ** Values handed to callers *)

Section Handles.
Import References.
Implicit Types (h : gmap ref object) (s : Instance) (r e a : ref).

(** Reading is stable under growth of the heap. *)
Lemma date_at_mono h h' r t :
  h ⊆ h' → date_at h r = Some t → date_at h' r = Some t.
Proof.
  unfold date_at. intros Hsub Hr.
  destruct (h !! r) as [o|] eqn:Ho; [|done].
  by rewrite (lookup_weaken _ _ _ _ Ho Hsub).
Qed.

Lemma category_of_mono h h' o c :
  h ⊆ h' → category_of h o = Some c → category_of h' o = Some c.
Proof.
  unfold category_of. intros Hsub Hc.
  destruct (date_at h (o_createdAt o)) as [t1|] eqn:H1; [|done].
  destruct (date_at h (o_updatedAt o)) as [t2|] eqn:H2; [|done].
  by rewrite (date_at_mono _ _ _ _ Hsub H1), (date_at_mono _ _ _ _ Hsub H2).
Qed.

Lemma category_at_mono h h' r c :
  h ⊆ h' → category_at h r = Some c → category_at h' r = Some c.
Proof.
  unfold category_at. intros Hsub Hc.
  destruct (h !! r) as [o|] eqn:Ho; [|done].
  rewrite (lookup_weaken _ _ _ _ Ho Hsub).
  destruct o; try done. by eapply category_of_mono.
Qed.

Lemma array_at_mono h h' r es :
  h ⊆ h' → array_at h r = Some es → array_at h' r = Some es.
Proof.
  unfold array_at. intros Hsub Hr.
  destruct (h !! r) as [o|] eqn:Ho; [|done].
  by rewrite (lookup_weaken _ _ _ _ Ho Hsub).
Qed.

Lemma collection_at_mono h h' r cs :
  h ⊆ h' → collection_at h r = Some cs → collection_at h' r = Some cs.
Proof.
  unfold collection_at. intros Hsub Hcs.
  destruct (array_at h r) as [es|] eqn:Hes; [|done].
  rewrite (array_at_mono _ _ _ _ Hsub Hes). simpl in *.
  apply mapM_Some in Hcs. apply mapM_Some.
  eapply Forall2_impl; [exact Hcs|].
  intros e c He. by eapply category_at_mono.
Qed.

Lemma alloc_fresh o h r h' :
  alloc o h = (r, h') → (r ∉ dom h) ∧ h' = <[r := o]> h ∧ h ⊆ h'.
Proof.
  unfold alloc. intros [= <- <-].
  pose proof (is_fresh (dom h)) as Hfresh.
  split; [done|]. split; [done|].
  apply insert_subseteq. by apply not_elem_of_dom.
Qed.

(** A category object reads as a category whose id is the object's id. *)
Lemma category_at_id h e c id0 :
  category_at h e = Some c → has_id h id0 e = String.eqb (id c) id0.
Proof.
  unfold category_at, has_id, category_of.
  destruct (h !! e) as [[| o | |]|]; try done.
  destruct (date_at h (o_createdAt o)); [|done].
  destruct (date_at h (o_updatedAt o)); [|done].
  by intros [= <-].
Qed.

(** The element [getCategoryById] returns is the element of the array that
    reads as the category found in the collection. *)
Lemma find_element h es cs id0 :
  mapM (category_at h) es = Some cs →
  match find (has_id h id0) es with
  | Some r => r ∈ es ∧
              category_at h r = find (λ c, String.eqb (id c) id0) cs
  | None => find (λ c, String.eqb (id c) id0) cs = None
  end.
Proof.
  intros Hcs%mapM_Some. induction Hcs as [|e c es cs He _ IH]; simpl; [done|].
  rewrite (category_at_id _ _ _ id0 He).
  destruct (String.eqb (id c) id0).
  - split; [apply list_elem_of_here|done].
  - destruct (find (has_id h id0) es); [|done].
    destruct IH as [Hin Hr]. split; [by apply list_elem_of_further|done].
Qed.

(** What the [map] of getCategoriesWithCount builds: the heap only grows,
    every new object has a reference that was not in use, and it carries
    the fields of the element it was spread from and that element's count. *)
Lemma map_with_count_spec taskCounts es h rs h' :
  map_with_count taskCounts es h = Some (rs, h') →
  h ⊆ h' ∧
  Forall (λ r, r ∉ dom h) rs ∧
  Forall2 (λ e r, ∃ o, h !! e = Some (CategoryObj o) ∧
                       h' !! r = Some (CountedObj o (count_or_zero taskCounts (o_id o))))
          es rs.
Proof.
  revert h rs h'. induction es as [|e es IH]; intros h rs h'; simpl.
  - intros [= <- <-]. split; [done|]. split; constructor.
  - destruct (h !! e) as [[| o | |]|] eqn:He; try discriminate.
    destruct (alloc (CountedObj o (count_or_zero taskCounts (o_id o))) h)
      as [r h1] eqn:Halloc.
    pose proof Halloc as [= Hreq Hheq].
    apply alloc_fresh in Halloc as (Hr & Hh1 & Hsub1).
    unfold alloc. rewrite Hheq, Hreq.
    destruct (map_with_count taskCounts es h1) as [[rs' h2]|] eqn:Hrest; [|done].
    intros [= <- <-].
    destruct (IH _ _ _ Hrest) as (Hsub2 & Hfresh & Hall).
    split; [by etrans|]. split.
    + constructor; [done|]. eapply Forall_impl; [exact Hfresh|].
      intros r' Hr' Hin. apply Hr'. eapply subseteq_dom; [exact Hsub1|done].
    + constructor.
      * exists o. split; [done|]. eapply lookup_weaken; [|exact Hsub2].
        rewrite Hh1. apply lookup_insert_eq.
      * eapply Forall2_impl; [exact Hall|]. intros e' r' (o' & He' & Hr').
        exists o'. split; [|done].
        rewrite Hh1 in He'. apply lookup_insert_Some in He' as [[_ [=]]|[_ ?]].
        done.
Qed.

(** The map does not get stuck on an array of category objects. *)
Lemma map_with_count_total taskCounts es h :
  Forall (λ e, ∃ o, h !! e = Some (CategoryObj o)) es →
  is_Some (map_with_count taskCounts es h).
Proof.
  revert h. induction es as [|e es IH]; intros h Hes; simpl; [by eexists|].
  apply Forall_cons in Hes as [(o & He) Hes]. rewrite He.
  destruct (alloc (CountedObj o (count_or_zero taskCounts (o_id o))) h)
    as [r h1] eqn:Halloc.
  pose proof Halloc as [= Hreq Hheq].
  apply alloc_fresh in Halloc as (Hr & Hh1 & Hsub1).
  unfold alloc. rewrite Hheq, Hreq.
  destruct (IH h1) as [[rs h2] Hrest].
  - eapply Forall_impl; [exact Hes|]. intros e' (o' & He').
    exists o'. by eapply lookup_weaken.
  - rewrite Hrest. by eexists.
Qed.

Lemma category_at_object h e c :
  category_at h e = Some c →
  ∃ o, h !! e = Some (CategoryObj o) ∧ category_of h o = Some c.
Proof.
  unfold category_at. destruct (h !! e) as [[| o | |]|]; try done. by exists o.
Qed.

(** The new array of getCategoriesWithCount reads as the collection with
    its counts. *)
Lemma counted_objects_read taskCounts h h1 h2 es rs cs :
  h ⊆ h1 → h1 ⊆ h2 →
  mapM (category_at h) es = Some cs →
  Forall2 (λ e r, ∃ o, h !! e = Some (CategoryObj o) ∧
                       h1 !! r = Some (CountedObj o (count_or_zero taskCounts (o_id o))))
          es rs →
  mapM (counted_at h2) rs = Some (map (with_count taskCounts) cs).
Proof.
  intros Hsub1 Hsub2 Hcs%mapM_Some Hall. apply mapM_Some.
  revert rs Hall. induction Hcs as [|e c es cs He _ IH]; intros rs Hall.
  - inversion Hall. constructor.
  - inversion Hall as [|? r ? rs' (o & Ho & Hr) Hall']; subst. simpl.
    constructor; [|by apply IH].
    apply category_at_object in He as (o' & Ho' & Hc).
    rewrite Ho in Ho'. injection Ho' as <-.
    unfold counted_at.
    rewrite (lookup_weaken _ _ _ _ Hr Hsub2).
    rewrite (category_of_mono h h2 o c); [|by etrans|done]. simpl.
    unfold with_count. do 2 f_equal.
    unfold category_of in Hc.
    destruct (date_at h (o_createdAt o)); [|done].
    destruct (date_at h (o_updatedAt o)); [|done].
    by injection Hc as <-.
Qed.

(** Overwriting the array leaves the objects of its elements as they were:
    a reference cannot hold an array and a category or a date at once. *)
Lemma category_at_insert_array h a es es' e c :
  array_at h a = Some es →
  category_at h e = Some c →
  category_at (<[a := ArrayObj es']> h) e = Some c.
Proof.
  unfold array_at, category_at, category_of, date_at. intros Ha He.
  destruct (h !! a) as [[| | | ?]|] eqn:Hha; try done.
  destruct (h !! e) as [[| o | |]|] eqn:Hhe; try done.
  rewrite lookup_insert_ne by congruence. rewrite Hhe.
  destruct (h !! o_createdAt o) as [[t1| | |]|] eqn:H1; try done.
  destruct (h !! o_updatedAt o) as [[t2| | |]|] eqn:H2; try done.
  rewrite !lookup_insert_ne by congruence. by rewrite H1, H2.
Qed.

(** The references handed out read as the values the services return: the
    methods of this layer refine those of both services. *)
Lemma references_refine_values s cs (lw : World Storage) (rw : World Firestore) id0 :
  snapshot s = Some cs →
  categoriesSignal lw = cs →
  categoriesSignal rw = cs →
  outcome CategoryService.getCategories lw
    = Returned (default [] (collection_at (objects s) (getCategories s))) ∧
  outcome FirebaseCategoryService.getCategories rw
    = Returned (default [] (collection_at (objects s) (getCategories s))) ∧
  ∃ found,
    getCategoryById id0 s = Some found ∧
    outcome (CategoryService.getCategoryById id0) lw
      = Returned (found ≫= category_at (objects s)) ∧
    outcome (FirebaseCategoryService.getCategoryById id0) rw
      = Returned (found ≫= category_at (objects s)).
Proof.
  unfold snapshot, getCategories, categories. intros Hsnap Hlw Hrw.
  rewrite Hsnap. simpl. unfold outcome. eff_unfold. simpl. rewrite Hlw, Hrw.
  split; [done|]. split; [done|].
  unfold collection_at in Hsnap.
  destruct (array_at (objects s) (signal s)) as [es|] eqn:Hes; [|done].
  simpl in Hsnap.
  exists (find (has_id (objects s) id0) es).
  unfold getCategoryById, categories. rewrite Hes. simpl. split; [done|].
  pose proof (find_element _ _ _ id0 Hsnap) as Hfind.
  destruct (find (has_id (objects s) id0) es) as [r|]; simpl.
  - destruct Hfind as [_ ->]. done.
  - by rewrite Hfind.
Qed.

(** C9, as the code has it, for both stores.  The reactive categories value
    and getCategories hand out the very array the signal holds, and
    getCategoryById hands out an element of that array: references to the
    store's live collection, not copies, so that a caller's [pop] on the
    array returned by getCategories removes the last category from the
    store's collection, with no call to the store and hence no persistence
    write.  getCategoriesWithCount hands out a newly allocated array of
    newly allocated records, each carrying the fields of the store's record
    (its [Date] objects included, which stay shared), and no caller-side
    mutation of that array or of those records changes the store's
    collection. *)
Theorem handed_out_values (s : Instance) (cs : list Category) :
  snapshot s = Some cs →
  (categories s = signal s ∧ getCategories s = signal s ∧
   snapshot (caller_pops (getCategories s) s)
     = Some (take (length cs - 1) cs)) ∧
  (∀ id0, ∃ found,
     getCategoryById id0 s = Some found ∧
     match found with
     | Some r =>
         (∃ es, array_at (objects s) (signal s) = Some es ∧ r ∈ es) ∧
         category_at (objects s) r = find (λ c, String.eqb (id c) id0) cs
     | None => find (λ c, String.eqb (id c) id0) cs = None
     end) ∧
  (∀ taskCounts, ∃ a s' rs,
     getCategoriesWithCount taskCounts s = Some (a, s') ∧
     signal s' = signal s ∧
     objects s ⊆ objects s' ∧
     array_at (objects s') a = Some rs ∧
     counted_collection_at (objects s') a
       = Some (map (with_count taskCounts) cs) ∧
     Forall (λ r, r ∉ dom (objects s)) (a :: rs) ∧
     (∃ es, array_at (objects s) (signal s) = Some es ∧
            Forall2 (λ e r, ∃ o n, objects s !! e = Some (CategoryObj o) ∧
                                   objects s' !! r = Some (CountedObj o n))
                    es rs) ∧
     ∀ r o, r ∈ a :: rs → snapshot (caller_writes r o s') = Some cs).
Proof.
  unfold snapshot, collection_at. intros Hsnap.
  destruct (array_at (objects s) (signal s)) as [es|] eqn:Hes; [|done].
  simpl in Hsnap. split; [|split].
  - split; [done|]. split; [done|].
    unfold getCategories, categories, caller_pops.
    pose proof Hes as Harr. unfold array_at in Harr.
    destruct (objects s !! signal s) as [[| | | es0]|]; try done.
    injection Harr as ->.
    unfold caller_writes, array_at. simpl. rewrite lookup_insert_eq. simpl.
    apply mapM_Some in Hsnap. apply mapM_Some.
    rewrite (Forall2_length _ _ _ Hsnap).
    apply Forall2_take. eapply Forall2_impl; [exact Hsnap|].
    intros e c He. by eapply category_at_insert_array.
  - intros id0. exists (find (has_id (objects s) id0) es).
    unfold getCategoryById, categories. rewrite Hes. simpl. split; [done|].
    pose proof (find_element _ _ _ id0 Hsnap) as Hfind.
    destruct (find (has_id (objects s) id0) es) as [r|]; [|done].
    destruct Hfind as [Hin Hr]. split; [by exists es|done].
  - intros taskCounts.
    destruct (map_with_count_total taskCounts es (objects s)) as [[rs h1] Hmap].
    { apply mapM_Some in Hsnap. clear -Hsnap. induction Hsnap as [|e c es cs He _ IH]; constructor; [|done].
      apply category_at_object in He as (o & Ho & _). by exists o. }
    destruct (map_with_count_spec _ _ _ _ _ Hmap) as (Hsub1 & Hfresh & Hall).
    destruct (alloc (ArrayObj rs) h1) as [a h2] eqn:Halloc.
    pose proof Halloc as Halloc'.
    apply alloc_fresh in Halloc' as (Ha & Hh2 & Hsub2).
    exists a, (mkInstance h2 (signal s)), rs.
    assert (a ∉ dom (objects s)) as Ha0.
    { intros Hin. apply Ha. eapply subseteq_dom; [exact Hsub1|done]. }
    assert (array_at h2 a = Some rs) as Harr.
    { unfold array_at. by rewrite Hh2, lookup_insert_eq. }
    split.
    { unfold getCategoriesWithCount, categories. rewrite Hes. simpl.
      rewrite Hmap. simpl. unfold alloc in Halloc. by injection Halloc as -> ->. }
    split; [done|]. split; [by etrans|]. split; [done|]. split.
    { unfold counted_collection_at. simpl. rewrite Harr. simpl.
      by apply (counted_objects_read taskCounts (objects s) h1 h2 es rs cs). }
    split; [by constructor|]. split.
    { exists es. split; [done|]. eapply Forall2_impl; [exact Hall|].
      intros e r (o & He & Hr). exists o, (count_or_zero taskCounts (o_id o)).
      split; [done|]. simpl. by eapply lookup_weaken. }
    intros r o Hin. unfold caller_writes. simpl.
    apply (collection_at_mono (objects s)).
    + apply insert_subseteq_r; [|by etrans].
      apply not_elem_of_dom. apply elem_of_cons in Hin as [->|Hin]; [done|].
      by eapply Forall_forall in Hfresh.
    + unfold collection_at. by rewrite Hes.
Qed.
End Handles.

(** [handed_out_values] on the sample instance, whose signal holds the
    array of the categories "a" and "b": emptying the array returned by
    getCategoriesWithCount leaves the store's collection as it was. *)
Lemma handed_out_values_witness :
  let s := References.sample_instance in
  References.snapshot s = Some [cat_a; cat_b] ∧
  ∃ a s' rs,
    References.getCategoriesWithCount {[ "a" := 3 ]} s = Some (a, s') ∧
    References.array_at (References.objects s') a = Some rs ∧
    References.counted_collection_at (References.objects s') a
      = Some [mkCounted cat_a 3; mkCounted cat_b 0] ∧
    References.snapshot
      (References.caller_writes a (References.ArrayObj []) s')
      = Some [cat_a; cat_b].
Proof.
  intros s.
  assert (References.snapshot s = Some [cat_a; cat_b]) as Hsnap by reflexivity.
  split; [exact Hsnap|].
  destruct (handed_out_values s [cat_a; cat_b] Hsnap) as (_ & _ & Hcounted).
  destruct (Hcounted {[ "a" := 3 ]})
    as (a & s' & rs & Hrun & _ & _ & Harr & Hread & _ & _ & Hsafe).
  exists a, s', rs. split; [exact Hrun|]. split; [exact Harr|].
  split; [exact Hread|]. apply Hsafe. apply list_elem_of_here.
Defined.

(** C9 fails for the categories value, getCategories and getCategoryById:
    the caller receives the store's own array and element.  A [pop] on the
    array returned by getCategories removes the category "b" from the
    store's collection, and an assignment to the name of the object
    returned by getCategoryById renames the store's category "b"; no method
    of the store is called, so nothing is persisted. *)
Lemma caller_mutation_changes_the_store :
  let s := References.sample_instance in
  let renamed :=
    References.CategoryObj
      (References.mkObject "b" "Renamed" "#fff" "#000" "briefcase" 2%positive 2%positive) in
  References.snapshot s = Some [cat_a; cat_b] ∧
  References.getCategories s = References.signal s ∧
  References.snapshot (References.caller_pops (References.getCategories s) s)
    = Some [cat_a] ∧
  References.getCategoryById "b" s = Some (Some 4%positive) ∧
  References.snapshot (References.caller_writes 4%positive renamed s)
    = Some [cat_a; mkCategory "b" "Renamed" "#fff" "#000" "briefcase" 20 20].
Proof.
  intros s renamed. repeat apply conj; reflexivity.
Qed.

(** ** Where a created category is put *)

Section LocalAppend.
Context `{Json}.
Import CategoryService.

(** C10: a createCategory whose persistence write is accepted leaves the
    prior collection in place, unchanged and in order, and puts the
    created category after it as the single last element. *)
Theorem createCategory_appends_last (dto : CreateCategoryDto) (w : World Storage) :
  ∃ c, outcome (createCategory dto) w = Returned c ∧
       (persists w (categoriesSignal w ++ [c]) →
        categoriesSignal (after (createCategory dto) w)
        = categoriesSignal w ++ [c]).
Proof.
  destruct (createCategory_run dto w) as (c & w1 & Hc & Hw1 & Hrun).
  exists c. unfold outcome, after. rewrite Hrun. simpl. split; [done|].
  unfold persists. intros ->. done.
Qed.
End LocalAppend.

(** [createCategory_appends_last] on a store that already holds three
    categories and accepts the write. *)
Lemma createCategory_appends_last_witness :
  let w := sample_world empty_storage ticking_clock [cat_a; cat_b; cat_c] in
  ∃ c, outcome (CategoryService.createCategory (H:=sample_json) work_dto) w
         = Returned c ∧
       categoriesSignal (after (CategoryService.createCategory (H:=sample_json) work_dto) w)
         = [cat_a; cat_b; cat_c] ++ [c].
Proof.
  intros w.
  destruct (createCategory_appends_last (H:=sample_json) work_dto w)
    as (c & Hout & Happend).
  exists c. split; [exact Hout|]. apply Happend. reflexivity.
Defined.

(** * Further properties of the local store *)

Section LocalSteps.
Context `{Json}.
Import CategoryService.

(** Whether the id is known or not: [deleteCategory] and [updateCategory]
    decide by searching the collection. *)
Lemma id_known_or_not (cs : list Category) (x : string) :
  x ∈ map id cs ∨ x ∉ map id cs.
Proof. destruct (decide (x ∈ map id cs)); [by left|by right]. Qed.

(** Every operation ends in one of two ways: the collection and the storage
    are as they were, or some collection was written and installed. *)
Lemma local_step_cases (op : local_op) (w : World Storage) :
  (categoriesSignal (local_step op w) = categoriesSignal w ∧
   backing (local_step op w) = backing w) ∨
  (∃ cs w0, local_step op w = written cs w0 ∧
            categoriesSignal w0 = categoriesSignal w ∧
            backing w0 = backing w ∧
            setItem_error (backing w) STORAGE_KEY (JSON_stringify cs) = None).
Proof.
  destruct op as [dto|id0 dto|id0|]; unfold local_step, after.
  - destruct (createCategory_run dto w) as (c & w1 & _ & Hw1 & ->). simpl.
    destruct (setItem_error _ _ _) eqn:Hset.
    + left. by rewrite Hw1.
    + right. exists (categoriesSignal w ++ [c]), w1. by rewrite Hw1.
  - destruct (id_known_or_not (categoriesSignal w) id0) as [Hin|Hnot].
    + apply find_id_present in Hin as (before & c & rest & Hcs & _ & _ & _ & Hidx).
      rewrite (updateCategory_run _ dto _ _ _ _ Hcs Hidx). simpl.
      destruct (setItem_error _ _ _) eqn:Hset; [by left|].
      right. by eexists _, (ticked w).
    + rewrite (updateCategory_absent _ _ _ Hnot). by left.
  - destruct (id_known_or_not (categoriesSignal w) id0) as [Hin|Hnot].
    + rewrite (deleteCategory_run _ _ Hin). simpl.
      destruct (setItem_error _ _ _) eqn:Hset; [by left|].
      right. by eexists _, w.
    + rewrite (deleteCategory_absent _ _ Hnot). by left.
  - unfold clearAllCategories. rewrite updateCategories_run. simpl.
    destruct (setItem_error _ _ _) eqn:Hset; [by left|].
    right. by eexists _, w.
Qed.

Lemma written_synced cs (w0 : World Storage) : synced (written cs w0).
Proof. unfold synced, written. simpl. apply lookup_insert_eq. Qed.

Lemma synced_same (w w' : World Storage) :
  categoriesSignal w' = categoriesSignal w → backing w' = backing w →
  synced w → synced w'.
Proof. unfold synced. by intros -> ->. Qed.

(** The same over a sequence of operations. *)
Lemma local_run_cases (ops : list local_op) (w : World Storage) :
  (categoriesSignal (local_run ops w) = categoriesSignal w ∧
   backing (local_run ops w) = backing w) ∨
  synced (local_run ops w).
Proof.
  unfold local_run. induction ops as [|op ops IH] using rev_ind; simpl.
  - by left.
  - rewrite foldl_snoc.
    set (w1 := foldl (λ w' op0, local_step op0 w') w ops) in *.
    destruct (local_step_cases op w1) as [[Hcs Hb]|(cs & w0 & -> & _)].
    + destruct IH as [[Hcs1 Hb1]|Hsynced].
      * left. by rewrite Hcs, Hb.
      * right. by apply (synced_same w1).
    + right. apply written_synced.
Qed.

Lemma local_run_synced (ops : list local_op) (w : World Storage) :
  synced w → synced (local_run ops w).
Proof.
  intros Hsynced. destruct (local_run_cases ops w) as [[Hcs Hb]|?]; [|done].
  by apply (synced_same w).
Qed.

(** X1.  Memory and storage move together.  After any sequence of create,
    update, delete and clear operations, whatever writes the browser
    refused on the way, either the collection and the storage are both as
    they were before the sequence, or the stored item is the serialization
    of the collection now in memory.  In particular a store whose item
    matches its collection keeps that property for ever. *)
Theorem storage_follows_the_collection (ops : list local_op) (w : World Storage) :
  ((categoriesSignal (local_run ops w) = categoriesSignal w ∧
    backing (local_run ops w) = backing w) ∨
   synced (local_run ops w)) ∧
  (synced w → synced (local_run ops w)).
Proof. split; [apply local_run_cases|apply local_run_synced]. Qed.
End LocalSteps.

(** [storage_follows_the_collection] on a store in step with its storage:
    a creation is written, then a deletion is refused because the quota is
    reached. *)
Lemma storage_follows_the_collection_witness :
  let tight :=
    mkStorage {[ "categories" := "[a]" ]} (λ _, None)
              (λ _ value, if String.eqb value "[a]" then Some quota_exceeded else None) in
  let w := sample_world tight ticking_clock [cat_a] in
  let ops := [LCreate work_dto; LDelete "1000-k3j9x0q1z"; LUpdate "zzz" job_dto] in
  synced (H:=sample_json) w ∧
  synced (H:=sample_json) (local_run (H:=sample_json) ops w) ∧
  length (categoriesSignal (local_run (H:=sample_json) ops w)) = 2%nat.
Proof.
  intros tight w ops.
  assert (synced (H:=sample_json) w) as Hsynced by reflexivity.
  split; [exact Hsynced|]. split; [|reflexivity].
  apply (storage_follows_the_collection (H:=sample_json) ops w). exact Hsynced.
Defined.

Section Reload.
Context `{Json}.
Import CategoryService.

Lemma truthy_text (text : string) : text ≠ "" → truthy (Some text) = Some text.
Proof. by destruct text. Qed.

(** What the constructor does with a stored text that parses. *)
Lemma constructor_parsed (w : World Storage) text stored :
  getItem_error (backing w) STORAGE_KEY = None →
  items (backing w) !! STORAGE_KEY = Some text →
  text ≠ "" →
  JSON_parse text = inr stored →
  constructor w =
    (Returned tt,
     mkWorld (map revive stored) (backing w) (trace w ++ [GetItem STORAGE_KEY])
             (clock w) (reads w) (random w) (draws w)).
Proof.
  intros Hget Hitem Htext Hparse. unfold constructor, loadCategories.
  eff_unfold. simpl. rewrite Hget. simpl. rewrite Hitem.
  rewrite (truthy_text _ Htext), Hparse. done.
Qed.

(** X2.  What a new instance loads is what the previous one held.  Start
    from a store whose item matches its collection and run any sequence of
    operations; if the storage can be read and the runtime reads back what
    it wrote for the final collection, then constructing the service anew
    returns normally, logs nothing and holds that same collection. *)
Theorem reload_restores_the_collection (ops : list local_op) (w : World Storage) :
  synced w →
  let w' := local_run ops w in
  getItem_error (backing w') STORAGE_KEY = None →
  round_trips (categoriesSignal w') →
  outcome constructor w' = Returned tt ∧
  categoriesSignal (after constructor w') = categoriesSignal w' ∧
  trace (after constructor w') = trace w' ++ [GetItem STORAGE_KEY].
Proof.
  intros Hsynced w' Hget (Htext & stored & Hparse & Hrevive).
  assert (synced w') as Hitem by by apply local_run_synced.
  unfold outcome, after.
  rewrite (constructor_parsed w' _ stored Hget Hitem Htext Hparse). simpl.
  by rewrite Hrevive.
Qed.
End Reload.

(** [reload_restores_the_collection] for a store holding "a": a category is
    created, and a new instance loads both. *)
Lemma reload_restores_the_collection_witness :
  let created := mkCategory "1000-k3j9x0q1z" "Work" "#fff" "#000" "briefcase" 1001 1002 in
  let json := echo_json [cat_a; created] in
  let storage := mkStorage {[ "categories" := "[a]" ]} (λ _, None) (λ _ _, None) in
  let w := sample_world storage ticking_clock [cat_a] in
  let w' := local_run (H:=json) [LCreate work_dto] w in
  categoriesSignal w' = [cat_a; created] ∧
  categoriesSignal (after (CategoryService.constructor (H:=json)) w')
    = [cat_a; created].
Proof.
  intros created json storage w w'. split; [reflexivity|].
  destruct (reload_restores_the_collection (H:=json) [LCreate work_dto] w)
    as (_ & Hsame & _).
  - reflexivity.
  - reflexivity.
  - split; [discriminate|]. exists (map echo_stored [cat_a; created]).
    split; reflexivity.
  - exact Hsame.
Defined.

Section LoadAndClear.
Context `{Json}.
Import CategoryService.

(** X3.  Loading reads the storage once and never writes to it.  The
    constructor leaves the storage exactly as it found it (a text that
    does not parse stays stored), and adds to the trace one [getItem]
    followed by at most one diagnostic.  A stored empty string is treated as
    an absent value: the collection is left empty and nothing is logged,
    whatever the parser would say of the empty string. *)
Theorem construction_reads_once_and_never_writes (w : World Storage) :
  let w' := after constructor w in
  backing w' = backing w ∧
  (∃ rest, trace w' = trace w ++ GetItem STORAGE_KEY :: rest ∧
           (rest = [] ∨
            ∃ e, rest = [ConsoleError "Error al cargar las categorías:" e])) ∧
  (getItem_error (backing w) STORAGE_KEY = None →
   items (backing w) !! STORAGE_KEY = Some "" →
   categoriesSignal w' = [] ∧ trace w' = trace w ++ [GetItem STORAGE_KEY]).
Proof.
  intros w'. subst w'. unfold after, constructor, loadCategories.
  eff_unfold. simpl. repeat apply conj.
  - destruct (getItem_error _ _); simpl; [done|].
    destruct (items _ !! _) as [[|a text]|]; simpl; try done.
    by destruct (JSON_parse _).
  - destruct (getItem_error _ _) as [e|]; simpl.
    { eexists. rewrite <- app_assoc. split; [done|]. right. by exists e. }
    destruct (items _ !! _) as [[|a text]|]; simpl;
      try (exists []; split; [done|by left]).
    destruct (JSON_parse _) as [e|parsed]; simpl.
    + eexists. rewrite <- app_assoc. split; [done|]. right. by exists e.
    + exists []. split; [done|by left].
  - intros -> ->. done.
Qed.

(** X4.  clearAllCategories always attempts the write, also when the
    collection is already empty, and never throws.  When the write is
    accepted the collection is empty, the stored item is the serialization
    of the empty collection, and every id is unknown from then on.  When
    the write throws, the error is logged and the collection is kept. *)
Theorem clearAllCategories_empties_or_keeps (w : World Storage) :
  let w' := after clearAllCategories w in
  outcome clearAllCategories w = Returned tt ∧
  (∃ rest, trace w' = trace w ++ SetItem STORAGE_KEY (JSON_stringify []) :: rest) ∧
  (persists w [] →
   categoriesSignal w' = [] ∧
   items (backing w') !! STORAGE_KEY = Some (JSON_stringify []) ∧
   ∀ id0, outcome (getCategoryById id0) w' = Returned None ∧
          deleteCategory id0 w' = (Returned false, w')) ∧
  (∀ e, setItem_error (backing w) STORAGE_KEY (JSON_stringify []) = Some e →
        logged_and_swallowed w w' [] e).
Proof.
  intros w'. subst w'. unfold outcome, after, clearAllCategories.
  rewrite updateCategories_run. simpl. repeat apply conj.
  - done.
  - destruct (setItem_error _ _ _); simpl; by eexists.
  - unfold persists. intros ->. split; [done|]. split; [apply lookup_insert_eq|].
    intros id0. split; [done|]. apply deleteCategory_absent.
    simpl. apply not_elem_of_nil.
  - by intros e ->.
Qed.
End LoadAndClear.

(** [construction_reads_once_and_never_writes] on a storage that holds the
    empty string, which the sample parser rejects. *)
Lemma construction_reads_once_and_never_writes_witness :
  let storage := mkStorage {[ "categories" := "" ]} (λ _, None) (λ _ _, None) in
  let w := sample_world storage ticking_clock [cat_a] in
  JSON_parse (Json:=sample_json) "" = inl (mkError "SyntaxError" "Unexpected token") ∧
  categoriesSignal (after (CategoryService.constructor (H:=sample_json)) w) = [] ∧
  trace (after (CategoryService.constructor (H:=sample_json)) w)
    = [GetItem "categories"].
Proof.
  intros storage w. split; [reflexivity|].
  destruct (construction_reads_once_and_never_writes (H:=sample_json) w)
    as (_ & _ & Hempty).
  apply Hempty; reflexivity.
Defined.

(** [clearAllCategories_empties_or_keeps] on a store of three categories,
    with a storage that accepts the write and with one that refuses it. *)
Lemma clearAllCategories_empties_or_keeps_witness :
  let ok := sample_world empty_storage ticking_clock [cat_a; cat_b; cat_c] in
  let full := sample_world full_storage ticking_clock [cat_a; cat_b; cat_c] in
  categoriesSignal (after (CategoryService.clearAllCategories (H:=sample_json)) ok) = [] ∧
  categoriesSignal (after (CategoryService.clearAllCategories (H:=sample_json)) full)
    = [cat_a; cat_b; cat_c].
Proof.
  intros ok full.
  destruct (clearAllCategories_empties_or_keeps (H:=sample_json) ok)
    as (_ & _ & Hok & _).
  destruct (clearAllCategories_empties_or_keeps (H:=sample_json) full)
    as (_ & _ & _ & Hfull).
  split.
  - apply Hok. reflexivity.
  - apply (Hfull quota_exceeded). reflexivity.
Defined.

(** ** Ids across the operations of the local store *)

Section Kept.
Context {A : Type}.
Implicit Types (p : A → bool) (l : list A).

Lemma filter_sublist p l : List.filter p l `sublist_of` l.
Proof.
  induction l as [|x l IH]; simpl; [constructor|].
  destruct (p x); by constructor.
Qed.

Lemma elem_of_filter_bool p l x : x ∈ List.filter p l ↔ x ∈ l ∧ p x = true.
Proof. rewrite !list_elem_of_In. apply filter_In. Qed.
End Kept.

Section Ids.
Context `{Json}.
Import CategoryService.

(** X5.  deleteCategory removes every category that carries the id, not
    only the first: for an id present in the collection (ids need not be
    distinct) it returns true, and when the persistence write is accepted
    no category with that id is left, every category with another id is
    kept, and the kept categories are in their prior order. *)
Theorem deleteCategory_removes_every_match (w : World Storage) (x : string) :
  x ∈ map id (categoriesSignal w) →
  let kept := List.filter (λ c, negb (String.eqb (id c) x)) (categoriesSignal w) in
  let w' := after (deleteCategory x) w in
  outcome (deleteCategory x) w = Returned true ∧
  (persists w kept →
   (x ∉ map id (categoriesSignal w')) ∧
   categoriesSignal w' `sublist_of` categoriesSignal w ∧
   ∀ c, c ∈ categoriesSignal w → id c ≠ x → c ∈ categoriesSignal w').
Proof.
  intros Hin kept w'. subst w'. unfold outcome, after.
  rewrite (deleteCategory_run _ _ Hin). simpl. fold kept. split; [done|].
  unfold persists. intros ->. simpl. repeat apply conj.
  - rewrite list_elem_of_fmap. intros (c & Hid & Hc).
    apply elem_of_filter_bool in Hc as [_ Hc]. apply negb_true_iff in Hc.
    apply String.eqb_neq in Hc. done.
  - apply filter_sublist.
  - intros c Hc Hne. apply elem_of_filter_bool. split; [done|].
    apply negb_true_iff. by apply String.eqb_neq.
Qed.

(** X6.  Distinct ids stay distinct.  If the ids of the collection are
    pairwise distinct, they still are after any operation, whether or not
    its write was accepted, provided that the id a creation generates is
    not yet in the collection.  An update never changes the ids of the
    collection at all. *)
Theorem distinct_ids_are_kept (op : local_op) (w : World Storage) :
  NoDup (map id (categoriesSignal w)) →
  (∀ dto, op = LCreate dto → next_id w ∉ map id (categoriesSignal w)) →
  NoDup (map id (categoriesSignal (local_step op w))) ∧
  (∀ id0 dto, op = LUpdate id0 dto →
     map id (categoriesSignal (local_step op w)) = map id (categoriesSignal w)).
Proof.
  intros Hnd Hfresh.
  destruct op as [dto|id0 dto|id0|]; unfold local_step, after.
  - split; [|done].
    destruct (createCategory_run dto w) as (c & w1 & Hc & Hw1 & ->). simpl.
    destruct (setItem_error _ _ _); simpl; [by rewrite Hw1|].
    rewrite map_app. simpl. apply NoDup_app. split; [done|].
    split; [|apply NoDup_singleton].
    intros i Hi ->%list_elem_of_singleton. apply (Hfresh dto eq_refl).
    by rewrite Hc in Hi.
  - assert (map id (categoriesSignal (updateCategory id0 dto w).2)
            = map id (categoriesSignal w)) as Hids.
    { destruct (id_known_or_not (categoriesSignal w) id0) as [Hin|Hnot].
      - apply find_id_present in Hin
          as (before & c & rest & Hcs & _ & _ & _ & Hidx).
        rewrite (updateCategory_run _ dto _ _ _ _ Hcs Hidx). simpl.
        destruct (setItem_error _ _ _); simpl; [done|].
        by rewrite Hcs, !map_app.
      - by rewrite (updateCategory_absent _ _ _ Hnot). }
    split; [by rewrite Hids|]. by intros ? ? _.
  - split; [|done].
    destruct (id_known_or_not (categoriesSignal w) id0) as [Hin|Hnot].
    + rewrite (deleteCategory_run _ _ Hin). simpl.
      destruct (setItem_error _ _ _); simpl; [done|].
      eapply sublist_NoDup; [exact Hnd|]. apply fmap_sublist, filter_sublist.
    + by rewrite (deleteCategory_absent _ _ Hnot).
  - split; [|done]. unfold clearAllCategories. rewrite updateCategories_run. simpl.
    destruct (setItem_error _ _ _); simpl; [done|]. apply NoDup_nil_2.
Qed.

(** X7.  An update can be read back.  When the persistence write is
    accepted, getCategoryById with the id of the updated category returns
    the record updateCategory returned. *)
Theorem updateCategory_then_getCategoryById (dto : UpdateCategoryDto)
    (w : World Storage) before c rest :
  categoriesSignal w = before ++ c :: rest →
  id c ∉ map id before →
  ∃ r, outcome (updateCategory (id c) dto) w = Returned (Some r) ∧
       (persists w (before ++ r :: rest) →
        outcome (getCategoryById (id c)) (after (updateCategory (id c) dto) w)
        = Returned (Some r)).
Proof.
  intros Hcs Hb. exists (spread_update c dto (clock w (reads w))).
  unfold outcome, after. rewrite (updateCategory_run _ dto _ _ _ _ Hcs).
  2: { rewrite Hcs. by apply find_id_first. }
  simpl. split; [done|]. unfold persists. intros ->.
  unfold getCategoryById, categories, mbind, Eff_bind, mret, Eff_ret. simpl.
  f_equal.
  by apply (find_id_first before (spread_update c dto (clock w (reads w))) rest).
Qed.

(** X8.  Deleting what was just created restores the collection.  When
    the generated id is not yet in the collection and both persistence
    writes are accepted, createCategory followed by deleteCategory of the
    created id returns true and leaves the collection as it was before the
    creation. *)
Theorem create_then_delete_restores (dto : CreateCategoryDto) (w : World Storage) :
  next_id w ∉ map id (categoriesSignal w) →
  ∃ c, outcome (createCategory dto) w = Returned c ∧
       id c = next_id w ∧
       (persists w (categoriesSignal w ++ [c]) →
        let w1 := after (createCategory dto) w in
        persists w1 (categoriesSignal w) →
        outcome (deleteCategory (id c)) w1 = Returned true ∧
        categoriesSignal (after (deleteCategory (id c)) w1) = categoriesSignal w).
Proof.
  intros Hfresh.
  destruct (createCategory_run dto w) as (c & w1 & Hc & Hw1 & Hrun).
  exists c. unfold outcome, after. rewrite Hrun. simpl. split; [done|].
  assert (id c = next_id w) as Hid by (by rewrite Hc).
  split; [done|]. unfold persists. intros ->. simpl. intros Hsecond.
  assert (List.filter (λ c', negb (String.eqb (id c') (id c)))
            (categoriesSignal w ++ [c]) = categoriesSignal w) as Hkept.
  { rewrite List.filter_app. simpl. rewrite String.eqb_refl. simpl.
    rewrite app_nil_r. apply filter_other_ids. by rewrite Hid. }
  rewrite (deleteCategory_run (id c)).
  2: { simpl. rewrite map_app. simpl. set_solver. }
  simpl. rewrite Hkept. simpl in Hsecond. rewrite Hsecond. done.
Qed.
End Ids.

(** [deleteCategory_removes_every_match] on a collection in which two
    categories carry the id "a". *)
Lemma deleteCategory_removes_every_match_witness :
  let twin := mkCategory "a" "Copy" "#333" "#ccc" "copy" 40 40 in
  let w := sample_world empty_storage ticking_clock [cat_a; cat_b; twin; cat_c] in
  outcome (CategoryService.deleteCategory (H:=sample_json) "a") w = Returned true ∧
  ("a" ∉ map id (categoriesSignal
                  (after (CategoryService.deleteCategory (H:=sample_json) "a") w))) ∧
  cat_c ∈ categoriesSignal
            (after (CategoryService.deleteCategory (H:=sample_json) "a") w).
Proof.
  intros twin w.
  destruct (deleteCategory_removes_every_match (H:=sample_json) w "a")
    as [Hout Hkept].
  { apply list_elem_of_here. }
  split; [exact Hout|].
  destruct Hkept as (Hgone & _ & Hothers); [reflexivity|].
  split; [exact Hgone|]. apply Hothers; [|discriminate].
  apply (bool_decide_unpack _). vm_compute. exact I.
Defined.

(** [distinct_ids_are_kept] on an update of "b" in a store of three
    categories. *)
Lemma distinct_ids_are_kept_witness :
  let w := sample_world empty_storage ticking_clock [cat_a; cat_b; cat_c] in
  NoDup (map id (categoriesSignal
                   (local_step (H:=sample_json) (LUpdate "b" job_dto) w))) ∧
  map id (categoriesSignal (local_step (H:=sample_json) (LUpdate "b" job_dto) w))
    = ["a"; "b"; "c"].
Proof.
  intros w.
  destruct (distinct_ids_are_kept (H:=sample_json) (LUpdate "b" job_dto) w)
    as [Hnd Hids].
  - apply (bool_decide_unpack _). vm_compute. exact I.
  - intros dto [=].
  - split; [exact Hnd|]. apply (Hids "b" job_dto eq_refl).
Defined.

(** [updateCategory_then_getCategoryById] on the rename of "b". *)
Lemma updateCategory_then_getCategoryById_witness :
  let w := sample_world empty_storage ticking_clock [cat_a; cat_b; cat_c] in
  ∃ r, outcome (CategoryService.updateCategory (H:=sample_json) "b" job_dto) w
         = Returned (Some r) ∧
       outcome (CategoryService.getCategoryById "b")
               (after (CategoryService.updateCategory (H:=sample_json) "b" job_dto) w)
         = Returned (Some r).
Proof.
  intros w.
  destruct (updateCategory_then_getCategoryById (H:=sample_json) job_dto w
              [cat_a] cat_b [cat_c]) as (r & Hout & Hread);
    [reflexivity|by intros [=]%list_elem_of_singleton|].
  exists r. split; [exact Hout|]. apply Hread. reflexivity.
Defined.

(** [create_then_delete_restores] on a store of three categories. *)
Lemma create_then_delete_restores_witness :
  let w := sample_world empty_storage ticking_clock [cat_a; cat_b; cat_c] in
  ∃ c, outcome (CategoryService.createCategory (H:=sample_json) work_dto) w
         = Returned c ∧
       categoriesSignal
         (after (CategoryService.deleteCategory (H:=sample_json) (id c))
                (after (CategoryService.createCategory (H:=sample_json) work_dto) w))
         = [cat_a; cat_b; cat_c].
Proof.
  intros w.
  destruct (create_then_delete_restores (H:=sample_json) work_dto w)
    as (c & Hout & _ & Hrestore).
  { apply (bool_decide_unpack _). vm_compute. exact I. }
  exists c. split; [exact Hout|].
  apply Hrestore; reflexivity.
Defined.

(** ** Generated ids *)

Section GeneratedIds.
Import CategoryService.

Lemma hyphen_free_go (x : N) (s : string) :
  hyphen_free s = true → hyphen_free (pretty_N_go x s) = true.
Proof.
  revert s. induction (N.lt_wf_0 x) as [x _ IH]; intros s Hs.
  assert (x = 0 ∨ 0 < x)%N as [->|Hpos] by lia.
  - by rewrite pretty_N_go_0.
  - rewrite pretty_N_go_step by done. apply IH; [by apply N.div_lt|].
    simpl. rewrite Hs. unfold pretty_N_char. by repeat case_match.
Qed.

(** The decimal numeral of a time that is not negative has no hyphen. *)
Lemma hyphen_free_pretty (t : Z) : 0 ≤ t → hyphen_free (pretty t) = true.
Proof.
  destruct t as [|p|p]; [done| |lia]. intros _.
  unfold pretty, pretty_Z, pretty, pretty_positive, pretty, pretty_N.
  case_decide; [done|]. by apply hyphen_free_go.
Qed.

Lemma append_nil_l (t : string) : "" +:+ t = t.
Proof. done. Qed.

Lemma append_cons_l (a : Ascii.ascii) (s t : string) :
  String a s +:+ t = String a (s +:+ t).
Proof. done. Qed.

Lemma hyphen_free_cons (a : Ascii.ascii) (s : string) :
  hyphen_free (String a s) = true →
  String a EmptyString ≠ "-" ∧ hyphen_free s = true.
Proof.
  simpl. intros [Ha Hs]%andb_true_iff. split; [|done].
  apply negb_true_iff in Ha. by apply String.eqb_neq.
Qed.

(** Two strings without hyphens that are followed by a hyphen: the first
    hyphen tells where each of them ends. *)
Lemma split_at_first_hyphen (a b x y : string) :
  hyphen_free a = true → hyphen_free b = true →
  a +:+ "-" +:+ x = b +:+ "-" +:+ y → a = b ∧ x = y.
Proof.
  revert b. induction a as [|ca a IH]; intros [|cb b] Ha Hb Heq;
    repeat (rewrite append_nil_l in Heq || rewrite append_cons_l in Heq).
  - by injection Heq as ->.
  - exfalso. apply hyphen_free_cons in Hb as [Hb _]. apply Hb.
    injection Heq as <- _. done.
  - exfalso. apply hyphen_free_cons in Ha as [Ha _]. apply Ha.
    injection Heq as -> _. done.
  - injection Heq as -> Heq.
    apply hyphen_free_cons in Ha as [_ Ha]. apply hyphen_free_cons in Hb as [_ Hb].
    destruct (IH b Ha Hb Heq) as [-> ->]. done.
Qed.

(** X9.  generateId never throws, and two generated ids are equal only if
    they were made at the same clock reading with the same random suffix:
    for readings that are not negative, ids made at different milliseconds
    differ, whatever the suffixes. *)
Theorem generateId_tells_time_and_suffix (w1 w2 : World Storage) :
  outcome (generateId) w1 = Returned (next_id w1) ∧
  outcome (generateId) w2 = Returned (next_id w2) ∧
  (0 ≤ clock w1 (reads w1) → 0 ≤ clock w2 (reads w2) →
   next_id w1 = next_id w2 →
   clock w1 (reads w1) = clock w2 (reads w2) ∧
   random w1 (draws w1) = random w2 (draws w2)).
Proof.
  split; [done|]. split; [done|]. unfold next_id. intros H1 H2 Heq.
  apply split_at_first_hyphen in Heq as [Ht Hs];
    [|by apply hyphen_free_pretty..].
  split; [|done]. by apply (inj pretty).
Qed.
End GeneratedIds.

(** [generateId_tells_time_and_suffix] on two worlds whose clock stands
    still: the ids are equal, and so are the readings. *)
Lemma generateId_tells_time_and_suffix_witness :
  let w1 := sample_world empty_storage still_clock [] in
  let w2 := ticked (sample_world empty_storage still_clock [cat_a]) in
  next_id w1 = "1000-k3j9x0q1z" ∧
  clock w1 (reads w1) = clock w2 (reads w2).
Proof.
  intros w1 w2. split; [reflexivity|].
  destruct (generateId_tells_time_and_suffix w1 w2) as (_ & _ & Hsame).
  apply Hsame; [by vm_compute|by vm_compute|reflexivity].
Defined.

(** * Further properties of the remote store *)

Section RemoteCache.
Import FirebaseCategoryService.
Implicit Types (w : World Firestore).

(** A write changes the trace and reads the clock, nothing else. *)
Lemma write_keeps_cache op w :
  is_write_op op = true →
  categoriesSignal (remote_step op w) = categoriesSignal w ∧
  backing (remote_step op w) = backing w.
Proof.
  destruct op as [dto|id0 dto|id0| |]; try done; intros _;
    unfold remote_step, after.
  - destruct (addDoc_reply (backing w) COLLECTION (document_for dto))
      as [e|key] eqn:Hreply.
    + by rewrite (createCategory_rejected _ _ _ Hreply).
    + by rewrite (createCategory_acknowledged _ _ _ Hreply).
  - destruct (find (λ c', String.eqb (id c') id0) (categoriesSignal w))
      as [c|] eqn:Hfind.
    + destruct (updateDoc_reply (backing w) COLLECTION id0 (update_for dto))
        as [e|] eqn:Hreply.
      * by rewrite (updateCategory_rejected _ _ _ _ _ Hfind Hreply).
      * by rewrite (updateCategory_acknowledged _ _ _ _ Hfind Hreply).
    + apply find_id_None in Hfind.
      by rewrite (remote_updateCategory_absent _ _ _ Hfind).
  - destruct (find (λ c', String.eqb (id c') id0) (categoriesSignal w))
      as [c|] eqn:Hfind.
    + destruct (deleteDoc_reply (backing w) COLLECTION id0) as [e|] eqn:Hreply.
      * by rewrite (deleteCategory_rejected _ _ _ _ Hfind Hreply).
      * by rewrite (deleteCategory_acknowledged _ _ _ Hfind Hreply).
    + apply find_id_None in Hfind.
      by rewrite (remote_deleteCategory_absent _ _ Hfind).
Qed.

(** X10.  The subscription is the only writer of the cache.  No sequence
    of createCategory, updateCategory and deleteCategory calls, acknowledged
    or rejected, changes the cached collection: a category created is not
    in it, an updated one is not changed in it, a deleted one is still in
    it, until the subscription delivers. *)
Theorem writes_never_touch_the_cache (ops : list remote_op) w :
  Forall (λ op, is_write_op op = true) ops →
  categoriesSignal (remote_run ops w) = categoriesSignal w.
Proof.
  unfold remote_run.
  induction ops as [|op ops IH] using rev_ind; intros Hops; [done|].
  apply Forall_app in Hops as [Hops [Hop _]%Forall_cons].
  rewrite foldl_snoc. rewrite (proj1 (write_keeps_cache _ _ Hop)). by apply IH.
Qed.
End RemoteCache.

(** [writes_never_touch_the_cache] on a cache of three categories: "b" is
    deleted and renamed and a category is created, all acknowledged. *)
Lemma writes_never_touch_the_cache_witness :
  let w := sample_world accepting_firestore ticking_clock [cat_a; cat_b; cat_c] in
  let ops := [RDelete "b"; RUpdate "b" job_dto; RCreate work_dto] in
  outcome (FirebaseCategoryService.deleteCategory "b") w = Returned true ∧
  categoriesSignal (remote_run ops w) = [cat_a; cat_b; cat_c].
Proof.
  intros w ops. split; [reflexivity|].
  apply (writes_never_touch_the_cache ops w).
  repeat constructor.
Defined.

Section Deliveries.
Import FirebaseCategoryService.
Implicit Types (w : World Firestore).

Lemma delivered_during_wider clk first next first' next' doc c :
  (first' ≤ first)%nat → (next ≤ next')%nat →
  delivered_during clk first next doc c →
  delivered_during clk first' next' doc c.
Proof.
  unfold delivered_during. intros Hf Hn (? & ? & ? & ? & ? & Hc & Hu).
  do 5 (split; [done|]). split.
  - destruct (doc_createdAt doc); [done|]. destruct Hc as (m & Hm & ->).
    exists m. split; [lia|done].
  - destruct (doc_updatedAt doc); [done|]. destruct Hu as (m & Hm & ->).
    exists m. split; [lia|done].
Qed.

(** One document: the clock is read once for each absent timestamp, the
    creation time first. *)
Lemma toCategory_run doc w :
  ∃ c n, toCategory doc w = (Returned c, advanced n w) ∧
         (n = absent_timestamps doc ∧
          delivered_during (clock w) (reads w) (n + reads w) doc c) ∧
         (∀ c0, committed doc = Some c0 → c = c0 ∧ n = 0%nat).
Proof.
  unfold toCategory, toDate_or_now, committed, delivered_during,
    absent_timestamps.
  destruct doc as [i nm col bg ic [t1|] [t2|]]; eff_unfold; simpl.
  - eexists _, 0%nat. split; [by destruct w|]. split; [done|].
    by intros c0 [= <-].
  - eexists _, 1%nat. split; [done|]. split; [|done]. split; [done|].
    do 6 (split; [done|]). exists (reads w). split; [lia|done].
  - eexists _, 1%nat. split; [done|]. split; [|done]. split; [done|].
    do 5 (split; [done|]). split; [|done]. exists (reads w). split; [lia|done].
  - eexists _, 2%nat. split; [done|]. split; [|done]. split; [done|].
    do 5 (split; [done|]). split.
    + exists (reads w). split; [lia|done].
    + exists (S (reads w)). split; [lia|done].
Qed.

Lemma advanced_advanced {B} (n m : nat) (w0 : World B) :
  advanced n (advanced m w0) = advanced (n + m) w0.
Proof. unfold advanced. simpl. f_equal. lia. Qed.

(** One delivery: a category for each document, in the order delivered,
    and one reading of the clock for each absent timestamp. *)
Lemma getCategories_emit_run docs w :
  ∃ cs n, getCategories_emit docs w = (Returned cs, advanced n w) ∧
          (n = sum_list (absent_timestamps <$> docs) ∧
           Forall2 (delivered_during (clock w) (reads w) (n + reads w)) docs cs) ∧
          (∀ cs0, mapM committed docs = Some cs0 → cs = cs0 ∧ n = 0%nat).
Proof.
  unfold getCategories_emit. revert w.
  induction docs as [|doc docs IH]; intros w.
  - exists [], 0%nat. split; [by destruct w|]. split; [by split; [|constructor]|].
    by intros cs0 [= <-].
  - destruct (toCategory_run doc w) as (c & n1 & Hc & [Hn1 Hdoc] & Hc0).
    destruct (IH (advanced n1 w)) as (cs & n2 & Hcs & [Hn2 Hdocs] & Hcs0).
    exists (c :: cs), (n2 + n1)%nat. split; [|split].
    + change (mapM toCategory (doc :: docs))
        with (c1 ← toCategory doc; cs1 ← mapM toCategory docs; mret (c1 :: cs1)).
      unfold mbind at 1. unfold Eff_bind at 1. rewrite Hc. cbv beta iota.
      unfold mbind at 1. unfold Eff_bind at 1. rewrite Hcs. cbv beta iota.
      by rewrite advanced_advanced.
    + split; [rewrite Hn1, Hn2, fmap_cons; simpl; lia|]. constructor.
      * eapply delivered_during_wider; [| |exact Hdoc]; lia.
      * eapply Forall2_impl; [exact Hdocs|]. intros d c'. simpl.
        apply delivered_during_wider; lia.
    + intros cs0 Hall. simpl in Hall.
      destruct (committed doc) as [c0|] eqn:Hdoc0; [|done]. simpl in Hall.
      destruct (mapM committed docs) as [cs1|] eqn:Hdocs0; [|done].
      injection Hall as <-.
      destruct (Hc0 c0 eq_refl) as [-> ->].
      destruct (Hcs0 cs1 eq_refl) as [-> ->]. done.
Qed.

(** X11.  A delivery replaces the cache with what was delivered.  The
    [next] callback never throws; afterwards the cache holds one category
    per delivered document, in the order delivered, with the document's key
    and fields and every timestamp the server committed.  A timestamp still
    absent is filled in with a reading of the client's clock taken during
    the delivery: the delivery takes exactly one reading for each absent
    timestamp, and an absent timestamp holds one of these readings.
    Nothing of the prior cache is kept, nothing is logged and no remote
    call is made. *)
Theorem delivery_replaces_the_cache (docs : list Document) w :
  let w' := after (subscription_next docs) w in
  outcome (subscription_next docs) w = Returned tt ∧
  Forall2 (delivered_during (clock w) (reads w) (reads w'))
          docs (categoriesSignal w') ∧
  reads w' = (sum_list (absent_timestamps <$> docs) + reads w)%nat ∧
  clock w' = clock w ∧
  trace w' = trace w ∧
  backing w' = backing w.
Proof.
  intros w'. subst w'. unfold outcome, after, subscription_next.
  destruct (getCategories_emit_run docs w) as (cs & n & Hrun & [Hn Hdocs] & _).
  unfold mbind, Eff_bind. rewrite Hrun. simpl. by rewrite <- Hn.
Qed.

(** While no failure has arrived the subscription is open, and the world
    is the one every operation and delivery has acted on. *)
Lemma subscribed_run_open (ops : list remote_op) w :
  Forall (λ op, is_failure op = false) ops →
  subscribed_run ops w = (true, remote_run ops w).
Proof.
  unfold subscribed_run, remote_run.
  induction ops as [|op ops IH] using rev_ind; intros Hops; [done|].
  apply Forall_app in Hops as [Hops [Hop _]%Forall_cons].
  rewrite !foldl_snoc, (IH Hops). by destruct op.
Qed.



(** X12.  The last delivery wins.  As long as the subscription has not
    failed, whatever writes and deliveries came before, after a delivery of
    documents whose timestamps are all committed the cache is exactly those
    documents, and the clock was not read for it. *)
Theorem last_delivery_wins (ops : list remote_op) (docs : list Document)
    (cs0 : list Category) w :
  Forall (λ op, is_failure op = false) ops →
  mapM committed docs = Some cs0 →
  categoriesSignal (subscribed_run (ops ++ [RNext docs]) w).2 = cs0 ∧
  reads (subscribed_run (ops ++ [RNext docs]) w).2
  = reads (subscribed_run ops w).2.
Proof.
  intros Hops Hall. unfold subscribed_run at 1 2. rewrite !foldl_snoc.
  fold (subscribed_run ops w). rewrite (subscribed_run_open ops w Hops).
  simpl. set (w1 := remote_run ops w).
  unfold after, subscription_next.
  destruct (getCategories_emit_run docs w1) as (cs & n & Hrun & _ & Hcs0).
  unfold mbind, Eff_bind. rewrite Hrun. simpl.
  by destruct (Hcs0 cs0 Hall) as [-> ->].
Qed.

End Deliveries.

(** [last_delivery_wins] on a cache of three categories: after a rejected
    creation and a delivery of a document without timestamps, one committed
    document is delivered. *)
Lemma last_delivery_wins_witness :
  let w := sample_world rejecting_firestore ticking_clock [cat_a; cat_b; cat_c] in
  let ops := [RCreate work_dto;
              RNext [mkDocument "a" "Home" "#111" "#eee" "home" None None]] in
  let docs := [mkDocument "b" "Work" "#fff" "#000" "briefcase" (Some 20) (Some 25)] in
  categoriesSignal (subscribed_run ops w).2
    = [mkCategory "a" "Home" "#111" "#eee" "home" 1000 1001] ∧
  categoriesSignal (subscribed_run (ops ++ [RNext docs]) w).2
    = [mkCategory "b" "Work" "#fff" "#000" "briefcase" 20 25].
Proof.
  intros w ops docs. split; [reflexivity|].
  apply (last_delivery_wins ops docs
           [mkCategory "b" "Work" "#fff" "#000" "briefcase" 20 25] w).
  - repeat constructor.
  - reflexivity.
Defined.


Section RemoteVisibility.
Import FirebaseCategoryService.
Implicit Types (w : World Firestore).

(** X13.  A created category becomes visible through the subscription
    only.  When Firestore acknowledges createCategory with a key that is not
    in the cache, the call returns a category with that key, but
    getCategoryById with the key still returns undefined; after a delivery
    of committed documents, getCategoryById returns what was delivered under
    the key, whatever createCategory had returned. *)
Theorem created_category_appears_on_delivery (dto : CreateCategoryDto) w key :
  addDoc_reply (backing w) COLLECTION (document_for dto) = inr key →
  key ∉ map id (categoriesSignal w) →
  let w1 := after (createCategory dto) w in
  ∃ c, outcome (createCategory dto) w = Returned c ∧
       id c = key ∧
       outcome (getCategoryById key) w1 = Returned None ∧
       ∀ docs cs0,
         mapM committed docs = Some cs0 →
         outcome (getCategoryById key) (after (subscription_next docs) w1)
         = Returned (find (λ c', String.eqb (id c') key) cs0).
Proof.
  intros Hreply Hnew w1. subst w1. unfold outcome, after.
  rewrite (createCategory_acknowledged _ _ _ Hreply). simpl.
  eexists. split; [done|]. split; [done|]. split.
  - unfold getCategoryById, categories, mbind, Eff_bind, mret, Eff_ret. simpl.
    f_equal. by apply find_id_None.
  - intros docs cs0 Hall. unfold subscription_next.
    set (w1 := ticked (ticked (logged _ w))).
    destruct (getCategories_emit_run docs w1) as (cs & n & Hrun & _ & Hcs0).
    destruct (Hcs0 cs0 Hall) as [-> ->].
    unfold mbind at 1. unfold Eff_bind at 1. rewrite Hrun. done.
Qed.

(** X14.  After a failure of the subscription nothing is known any more.
    The [error] callback never throws, logs the failure and empties the
    cache; from then on updateCategory and deleteCategory answer null and
    false for every id, without any call to Firestore, until the next
    delivery. *)
Theorem subscription_failure_forgets_everything (e : error) w :
  let w' := after (subscription_error e) w in
  outcome (subscription_error e) w = Returned tt ∧
  categoriesSignal w' = [] ∧
  trace w' = trace w ++ [ConsoleError "Error al cargar categorías desde Firestore:" e] ∧
  ∀ id0 dto,
    updateCategory id0 dto w' = (Returned None, w') ∧
    deleteCategory id0 w' = (Returned false, w').
Proof.
  intros w'. subst w'. unfold outcome, after, subscription_error.
  unfold console_error, emit, categoriesSignal_set, mbind, Eff_bind. simpl.
  do 3 (split; [done|]). intros id0 dto. split.
  - apply remote_updateCategory_absent. simpl. apply not_elem_of_nil.
  - apply remote_deleteCategory_absent. simpl. apply not_elem_of_nil.
Qed.
End RemoteVisibility.

(** [created_category_appears_on_delivery] with a Firestore that answers
    with the key "doc1": the cache learns of the category when the document
    is delivered. *)
Lemma created_category_appears_on_delivery_witness :
  let w := sample_world accepting_firestore ticking_clock [cat_a] in
  let w1 := after (FirebaseCategoryService.createCategory work_dto) w in
  let docs := [mkDocument "a" "Home" "#111" "#eee" "home" (Some 10) (Some 10);
               mkDocument "doc1" "Work" "#fff" "#000" "briefcase" (Some 990) (Some 990)] in
  outcome (FirebaseCategoryService.getCategoryById "doc1") w1 = Returned None ∧
  outcome (FirebaseCategoryService.getCategoryById "doc1")
          (after (FirebaseCategoryService.subscription_next docs) w1)
    = Returned (Some (mkCategory "doc1" "Work" "#fff" "#000" "briefcase" 990 990)).
Proof.
  intros w w1 docs.
  destruct (created_category_appears_on_delivery work_dto w "doc1")
    as (c & _ & _ & Hhidden & Hshown).
  - reflexivity.
  - by intros [=]%list_elem_of_singleton.
  - split; [exact Hhidden|].
    apply (Hshown docs
             [cat_a; mkCategory "doc1" "Work" "#fff" "#000" "briefcase" 990 990]).
    reflexivity.
Defined.

(** * Further properties of the values handed out *)

Section Growth.
Import References ReferenceStore.
Implicit Types (h : gmap ref object) (s : Instance).

Lemma updateCategories_objects accepted a s :
  objects (ReferenceStore.updateCategories accepted a s) = objects s.
Proof. by destruct accepted. Qed.

(** No operation overwrites or removes an object: the heap only grows. *)
Lemma step_grows (o : op) s : objects s ⊆ objects (step o s).
Proof.
  destruct o as [accepted newId dto created updated|accepted id0 dto now
                |accepted id0|accepted]; unfold step.
  - unfold ReferenceStore.createCategory.
    destruct (alloc (DateObj created) (objects s)) as [d1 h1] eqn:H1.
    destruct (alloc (DateObj updated) h1) as [d2 h2] eqn:H2.
    destruct (alloc (CategoryObj _) h2) as [c h3] eqn:H3.
    apply alloc_fresh in H1 as (_ & _ & Hs1).
    apply alloc_fresh in H2 as (_ & _ & Hs2).
    apply alloc_fresh in H3 as (_ & _ & Hs3).
    destruct (array_at h3 (categories s)) as [es|]; [|done].
    cbn -[alloc].
    destruct (alloc (ArrayObj _) h3) as [a h4] eqn:H4.
    apply alloc_fresh in H4 as (_ & _ & Hs4).
    cbn. rewrite updateCategories_objects. simpl.
    etrans; [exact Hs1|]. etrans; [exact Hs2|]. by etrans.
  - unfold ReferenceStore.updateCategory.
    destruct (array_at (objects s) (categories s)) as [es|]; [|done].
    cbn -[alloc]. destruct (_ =? -1); [done|].
    destruct (at_index es _) as [e|]; [|done]. cbn -[alloc].
    destruct (objects s !! e) as [[| o | |]|]; try done.
    destruct (alloc (DateObj now) (objects s)) as [d h1] eqn:H1.
    destruct (alloc (CategoryObj _) h1) as [u h2] eqn:H2.
    destruct (alloc (ArrayObj _) h2) as [a h3] eqn:H3.
    apply alloc_fresh in H1 as (_ & _ & Hs1).
    apply alloc_fresh in H2 as (_ & _ & Hs2).
    apply alloc_fresh in H3 as (_ & _ & Hs3).
    cbn. rewrite updateCategories_objects. simpl.
    etrans; [exact Hs1|]. by etrans.
  - unfold ReferenceStore.deleteCategory.
    destruct (array_at (objects s) (categories s)) as [es|]; [|done].
    cbn -[alloc].
    destruct (alloc (ArrayObj _) (objects s)) as [a h1] eqn:H1.
    apply alloc_fresh in H1 as (_ & _ & Hs1).
    destruct (_ =? _); cbn; [done|]. by rewrite updateCategories_objects.
  - unfold ReferenceStore.clearAllCategories.
    destruct (alloc (ArrayObj []) (objects s)) as [a h1] eqn:H1.
    apply alloc_fresh in H1 as (_ & _ & Hs1).
    by rewrite updateCategories_objects.
Qed.

Lemma run_grows (ops : list op) s : objects s ⊆ objects (run ops s).
Proof.
  unfold run. induction ops as [|o ops IH] using rev_ind; [done|].
  rewrite foldl_snoc. etrans; [exact IH|]. apply step_grows.
Qed.

(** X15.  The store never changes a value it has handed out.  create,
    update, delete and clear build new arrays, new category objects and new
    dates and leave every existing object as it is, whether the write was
    accepted or refused: an array or a category obtained from the store
    reads the same after any sequence of later operations. *)
Theorem handed_out_values_are_stable (ops : list op) s (r : ref) :
  (∀ cs, collection_at (objects s) r = Some cs →
         collection_at (objects (run ops s)) r = Some cs) ∧
  (∀ c, category_at (objects s) r = Some c →
        category_at (objects (run ops s)) r = Some c).
Proof.
  split.
  - intros cs. apply collection_at_mono, run_grows.
  - intros c. apply category_at_mono, run_grows.
Qed.
End Growth.

(** [handed_out_values_are_stable] on the sample instance: the array the
    caller got from getCategories still reads as "a" and "b" after "a" was
    deleted, "b" renamed, a category created and the store cleared. *)
Lemma handed_out_values_are_stable_witness :
  let s := References.sample_instance in
  let ops := [ReferenceStore.Delete true "a";
              ReferenceStore.Update true "b" job_dto 77;
              ReferenceStore.Create true "n" work_dto 5 6;
              ReferenceStore.Clear true] in
  References.snapshot (ReferenceStore.run ops s) = Some [] ∧
  References.collection_at (References.objects (ReferenceStore.run ops s))
                           (References.getCategories s)
    = Some [cat_a; cat_b].
Proof.
  intros s ops. split; [reflexivity|].
  apply (handed_out_values_are_stable ops s (References.getCategories s)).
  reflexivity.
Defined.

Section Simulation.
Context `{Json}.
Import References.
Implicit Types (h : gmap ref object) (s : Instance).

(** The elements of an array read, one by one, as the categories of the
    collection. *)
Lemma collection_at_elements h a cs :
  collection_at h a = Some cs ↔
  ∃ es, array_at h a = Some es ∧
        Forall2 (λ e c, category_at h e = Some c) es cs.
Proof.
  unfold collection_at. split.
  - destruct (array_at h a) as [es|]; [|done]. simpl.
    intros Hcs%mapM_Some. by exists es.
  - intros (es & -> & Hcs). simpl. by apply mapM_Some.
Qed.

Lemma elements_mono h h' es cs :
  h ⊆ h' →
  Forall2 (λ e c, category_at h e = Some c) es cs →
  Forall2 (λ e c, category_at h' e = Some c) es cs.
Proof.
  intros Hsub Hcs. eapply Forall2_impl; [exact Hcs|].
  intros e c. by apply category_at_mono.
Qed.

(** A new array reads as the categories its elements read as. *)
Lemma alloc_array_reads h es cs a h' :
  alloc (ArrayObj es) h = (a, h') →
  Forall2 (λ e c, category_at h e = Some c) es cs →
  collection_at h' a = Some cs.
Proof.
  intros (Ha & -> & Hsub)%alloc_fresh Hcs. apply collection_at_elements.
  exists es. split.
  - unfold array_at. by rewrite lookup_insert_eq.
  - by eapply elements_mono.
Qed.

Lemma filter_elements h x es cs :
  Forall2 (λ e c, category_at h e = Some c) es cs →
  Forall2 (λ e c, category_at h e = Some c)
    (List.filter (λ e, negb (has_id h x e)) es)
    (List.filter (λ c, negb (String.eqb (id c) x)) cs).
Proof.
  induction 1 as [|e c es cs He _ IH]; simpl; [constructor|].
  rewrite (category_at_id _ _ _ x He).
  destruct (String.eqb (id c) x); simpl; [done|by constructor].
Qed.

Lemma findIndex_elements h x es cs :
  Forall2 (λ e c, category_at h e = Some c) es cs →
  findIndex (has_id h x) es = findIndex (λ c, String.eqb (id c) x) cs.
Proof.
  unfold findIndex. intros Hcs. generalize 0.
  induction Hcs as [|e c es cs He _ IH]; intros i; simpl; [done|].
  rewrite (category_at_id _ _ _ x He).
  destruct (String.eqb (id c) x); [done|apply IH].
Qed.

Lemma written_signal cs (w : World Storage) : categoriesSignal (written cs w) = cs.
Proof. done. Qed.

Lemma refused_signal cs e (w : World Storage) :
  categoriesSignal (refused cs e w) = categoriesSignal w.
Proof. done. Qed.

(** deleteCategory on references computes what deleteCategory computes. *)
Lemma deleteCategory_simulated (w : World Storage) s (id0 : string) :
  snapshot s = Some (categoriesSignal w) →
  let kept := List.filter (λ c, negb (String.eqb (id c) id0)) (categoriesSignal w) in
  ∃ b s',
    ReferenceStore.deleteCategory (accepts w kept) id0 s = Some (b, s') ∧
    outcome (CategoryService.deleteCategory id0) w = Returned b ∧
    snapshot s' = Some (categoriesSignal (after (CategoryService.deleteCategory id0) w)).
Proof.
  intros Hsnap kept. unfold snapshot in *.
  apply collection_at_elements in Hsnap as (es & Hes & Hcs).
  unfold ReferenceStore.deleteCategory, categories. rewrite Hes. cbn -[alloc].
  destruct (alloc (ArrayObj _) (objects s)) as [a h1] eqn:Halloc.
  pose proof (filter_elements _ id0 _ _ Hcs) as Hkept. fold kept in Hkept.
  pose proof (alloc_array_reads _ _ _ _ _ Halloc Hkept) as Ha.
  apply alloc_fresh in Halloc as (_ & _ & Hsub).
  assert (collection_at h1 (signal s) = Some (categoriesSignal w)) as Hold.
  { apply (collection_at_mono (objects s)); [done|].
    apply collection_at_elements. by exists es. }
  unfold length_of. rewrite (Forall2_length _ _ _ Hkept), (Forall2_length _ _ _ Hcs).
  unfold outcome, after, CategoryService.deleteCategory.
  unfold mbind at 1 3. unfold Eff_bind at 1 3. eff_unfold. cbv beta iota.
  fold kept. unfold length_of.
  destruct (Z.of_nat (length kept) =? Z.of_nat (length (categoriesSignal w))).
  - by exists false, (mkInstance h1 (signal s)).
  - rewrite updateCategories_run. cbv beta iota. simpl.
    eexists true, _. split; [done|]. split; [done|].
    unfold accepts. by destruct (setItem_error _ _ _).
Qed.

(** clearAllCategories on references computes what clearAllCategories
    computes. *)
Lemma clearAllCategories_simulated (w : World Storage) s :
  snapshot s = Some (categoriesSignal w) →
  snapshot (ReferenceStore.clearAllCategories (accepts w []) s)
  = Some (categoriesSignal (after CategoryService.clearAllCategories w)).
Proof.
  unfold snapshot, ReferenceStore.clearAllCategories. intros Hsnap.
  destruct (alloc (ArrayObj []) (objects s)) as [a h1] eqn:Halloc.
  pose proof (alloc_array_reads _ [] [] _ _ Halloc (Forall2_nil_2 _ _ _)) as Ha.
  apply alloc_fresh in Halloc as (_ & _ & Hsub).
  unfold after, CategoryService.clearAllCategories.
  rewrite updateCategories_run. simpl. unfold accepts.
  destruct (setItem_error _ _ _); simpl; [|done].
  by apply (collection_at_mono (objects s)).
Qed.

Lemma date_at_alloc h t d h' :
  alloc (DateObj t) h = (d, h') → date_at h' d = Some t.
Proof.
  intros (_ & -> & _)%alloc_fresh. unfold date_at. by rewrite lookup_insert_eq.
Qed.

(** createCategory on references computes what createCategory computes,
    and the reference it returns reads as the category returned. *)
Lemma createCategory_simulated (w : World Storage) s (dto : CreateCategoryDto) :
  snapshot s = Some (categoriesSignal w) →
  ∃ c r s',
    outcome (CategoryService.createCategory dto) w = Returned c ∧
    ReferenceStore.createCategory (accepts w (categoriesSignal w ++ [c]))
      (id c) dto (createdAt c) (updatedAt c) s = Some (r, s') ∧
    category_at (objects s') r = Some c ∧
    snapshot s'
    = Some (categoriesSignal (after (CategoryService.createCategory dto) w)) ∧
    (accepts w (categoriesSignal w ++ [c]) = true →
     ∃ es, array_at (objects s') (signal s') = Some (es ++ [r])).
Proof.
  intros Hsnap. unfold snapshot in Hsnap.
  pose proof Hsnap as Hsnap0.
  apply collection_at_elements in Hsnap as (es & Hes & Hcs).
  destruct (createCategory_run dto w) as (c & w1 & Hc & Hw1 & Hrun).
  destruct (alloc (DateObj (createdAt c)) (objects s)) as [d1 h1] eqn:H1.
  destruct (alloc (DateObj (updatedAt c)) h1) as [d2 h2] eqn:H2.
  destruct (alloc (CategoryObj (mkObject (id c) (c_name dto) (c_color dto)
                                  (c_backgroundColor dto) (c_icon dto) d1 d2)) h2)
    as [r h3] eqn:H3.
  destruct (alloc (ArrayObj (es ++ [r])) h3) as [a h4] eqn:H4.
  pose proof (date_at_alloc _ _ _ _ H1) as Hd1.
  pose proof (date_at_alloc _ _ _ _ H2) as Hd2.
  pose proof H1 as (_ & _ & Hs1)%alloc_fresh.
  pose proof H2 as (_ & _ & Hs2)%alloc_fresh.
  pose proof H3 as (_ & Hh3 & Hs3)%alloc_fresh.
  pose proof H4 as (_ & Hh4 & Hs4)%alloc_fresh.
  assert (objects s ⊆ h3) as Hs by (etrans; [exact Hs1|by etrans]).
  assert (category_at h3 r = Some c) as Hr.
  { unfold category_at. rewrite Hh3, lookup_insert_eq, <- Hh3.
    unfold category_of. simpl.
    rewrite (date_at_mono h1 h3 d1 (createdAt c)); [|by etrans|done].
    rewrite (date_at_mono h2 h3 d2 _ Hs3 Hd2). simpl. by rewrite Hc. }
  assert (collection_at h4 a = Some (categoriesSignal w ++ [c])) as Ha.
  { apply (alloc_array_reads h3 (es ++ [r])); [done|].
    apply Forall2_app; [by eapply elements_mono|by constructor]. }
  exists c, r,
    (ReferenceStore.updateCategories (accepts w (categoriesSignal w ++ [c])) a
       (mkInstance h4 (signal s))).
  unfold outcome, after. rewrite Hrun. simpl. split; [done|]. split.
  { unfold ReferenceStore.createCategory. rewrite H1, H2, H3.
    unfold categories. rewrite (array_at_mono _ _ _ _ Hs Hes). cbn -[alloc].
    by rewrite H4. }
  unfold accepts. destruct (setItem_error _ _ _); simpl.
  - split; [by eapply category_at_mono|]. split; [|done].
    rewrite Hw1. simpl. apply (collection_at_mono (objects s)); [by etrans|done].
  - split; [by eapply category_at_mono|]. split; [done|].
    intros _. exists es. unfold array_at. by rewrite Hh4, lookup_insert_eq.
Qed.

Lemma category_of_fields h o c :
  category_of h o = Some c →
  date_at h (o_createdAt o) = Some (createdAt c) ∧
  date_at h (o_updatedAt o) = Some (updatedAt c) ∧
  c = {| id := o_id o; name := o_name o; color := o_color o;
         backgroundColor := o_backgroundColor o; icon := o_icon o;
         createdAt := createdAt c; updatedAt := updatedAt c |}.
Proof.
  unfold category_of.
  destruct (date_at h (o_createdAt o)) as [t1|]; [|done].
  destruct (date_at h (o_updatedAt o)) as [t2|]; [|done].
  by intros [= <-].
Qed.

(** updateCategory on references computes what updateCategory computes,
    and the reference it returns reads as the category returned. *)
Lemma updateCategory_simulated (w : World Storage) s (dto : UpdateCategoryDto)
    before c rest :
  categoriesSignal w = before ++ c :: rest →
  id c ∉ map id before →
  snapshot s = Some (categoriesSignal w) →
  let r := spread_update c dto (clock w (reads w)) in
  ∃ u s',
    ReferenceStore.updateCategory (accepts w (before ++ r :: rest)) (id c) dto
      (clock w (reads w)) s = Some (Some u, s') ∧
    outcome (CategoryService.updateCategory (id c) dto) w = Returned (Some r) ∧
    category_at (objects s') u = Some r ∧
    snapshot s'
    = Some (categoriesSignal (after (CategoryService.updateCategory (id c) dto) w)).
Proof.
  intros Hw Hfirst Hsnap r. unfold snapshot in Hsnap.
  pose proof Hsnap as Hsnap0.
  apply collection_at_elements in Hsnap as (es & Hes & Hcs).
  rewrite Hw in Hcs.
  apply Forall2_app_inv_r in Hcs as (eb & er0 & Hb & Hcr & ->).
  apply Forall2_cons_inv_r in Hcr as (e & er & He & Hr & ->).
  destruct (find_id_first before c rest Hfirst) as [_ Hidx].
  assert (findIndex (has_id (objects s) (id c)) (eb ++ e :: er) = length_of eb)
    as Hidx'.
  { rewrite (findIndex_elements (objects s) (id c) _ (before ++ c :: rest)).
    - rewrite Hidx. unfold length_of. by rewrite (Forall2_length _ _ _ Hb).
    - apply Forall2_app; [done|by constructor]. }
  apply category_at_object in He as (o & Ho & Hc).
  destruct (category_of_fields _ _ _ Hc) as (Hcreated & _ & Hfields).
  set (now := clock w (reads w)) in *.
  destruct (alloc (DateObj now) (objects s)) as [d h1] eqn:H1.
  destruct (alloc (CategoryObj (ReferenceStore.spread_object o dto d)) h1)
    as [u h2] eqn:H2.
  destruct (alloc (ArrayObj (eb ++ u :: er)) h2) as [a h3] eqn:H3.
  pose proof (date_at_alloc _ _ _ _ H1) as Hd.
  pose proof H1 as (_ & _ & Hs1)%alloc_fresh.
  pose proof H2 as (_ & Hh2 & Hs2)%alloc_fresh.
  pose proof H3 as (_ & _ & Hs3)%alloc_fresh.
  assert (objects s ⊆ h2) as Hs by by etrans.
  assert (category_at h2 u = Some r) as Hu.
  { unfold category_at. rewrite Hh2, lookup_insert_eq, <- Hh2.
    unfold category_of. simpl.
    rewrite (date_at_mono (objects s) h2 _ (createdAt c) Hs Hcreated).
    rewrite (date_at_mono h1 h2 d now Hs2 Hd). simpl.
    unfold r, spread_update. by rewrite Hfields. }
  assert (collection_at h3 a = Some (before ++ r :: rest)) as Ha.
  { apply (alloc_array_reads h2 (eb ++ u :: er)); [done|].
    apply Forall2_app; [by eapply elements_mono|].
    constructor; [done|by eapply elements_mono]. }
  exists u,
    (ReferenceStore.updateCategories (accepts w (before ++ r :: rest)) a
       (mkInstance h3 (signal s))).
  unfold outcome, after. rewrite (updateCategory_run _ dto _ _ _ _ Hw).
  2: { by rewrite Hw. }
  simpl. fold now. fold r. split.
  { unfold ReferenceStore.updateCategory, categories. rewrite Hes. cbn -[alloc].
    rewrite Hidx'.
    destruct (Z.eqb_spec (length_of eb) (-1)) as [Hneg|_].
    { unfold length_of in Hneg. lia. }
    rewrite at_index_middle. cbn -[alloc]. rewrite Ho, H1, H2.
    rewrite slice_before, slice_from_after. by rewrite H3. }
  split; [done|].
  unfold accepts. destruct (setItem_error _ _ _); simpl.
  - split; [by eapply category_at_mono|].
    apply (collection_at_mono (objects s)); [by etrans|done].
  - split; [by eapply category_at_mono|done].
Qed.

(** For an unknown id nothing is built: the instance is left as it is. *)
Lemma updateCategory_simulated_absent accepted id0 dto now s cs :
  snapshot s = Some cs → id0 ∉ map id cs →
  ReferenceStore.updateCategory accepted id0 dto now s = Some (None, s).
Proof.
  unfold snapshot. intros (es & Hes & Hcs)%collection_at_elements Hnot.
  unfold ReferenceStore.updateCategory, categories. rewrite Hes. cbn -[alloc].
  rewrite (findIndex_elements _ id0 _ _ Hcs).
  apply find_id_None, findIndex_None in Hnot. by rewrite Hnot.
Qed.
End Simulation.

Section SimulationTheorem.
Context `{Json}.
Import References.

(** X16.  The store on references computes what [CategoryService]
    computes.  From an instance whose signal reads as the collection of the
    world, and with the same verdict of the browser on the write, each of
    deleteCategory, clearAllCategories, createCategory and updateCategory
    returns a value that reads as the value the service returns and leaves
    a signal that reads as the collection the service leaves.  The category
    createCategory returns is the very object it put last in the new
    array. *)
Theorem reference_store_simulates_the_service (w : World Storage) (s : Instance) :
  snapshot s = Some (categoriesSignal w) →
  (∀ id0,
     let kept := List.filter (λ c, negb (String.eqb (id c) id0)) (categoriesSignal w) in
     ∃ b s',
       ReferenceStore.deleteCategory (accepts w kept) id0 s = Some (b, s') ∧
       outcome (CategoryService.deleteCategory id0) w = Returned b ∧
       snapshot s'
       = Some (categoriesSignal (after (CategoryService.deleteCategory id0) w))) ∧
  snapshot (ReferenceStore.clearAllCategories (accepts w []) s)
  = Some (categoriesSignal (after CategoryService.clearAllCategories w)) ∧
  (∀ dto,
     ∃ c r s',
       outcome (CategoryService.createCategory dto) w = Returned c ∧
       ReferenceStore.createCategory (accepts w (categoriesSignal w ++ [c]))
         (id c) dto (createdAt c) (updatedAt c) s = Some (r, s') ∧
       category_at (objects s') r = Some c ∧
       snapshot s'
       = Some (categoriesSignal (after (CategoryService.createCategory dto) w)) ∧
       (accepts w (categoriesSignal w ++ [c]) = true →
        ∃ es, array_at (objects s') (signal s') = Some (es ++ [r]))) ∧
  (∀ dto before c rest,
     categoriesSignal w = before ++ c :: rest →
     id c ∉ map id before →
     let r := spread_update c dto (clock w (reads w)) in
     ∃ u s',
       ReferenceStore.updateCategory (accepts w (before ++ r :: rest)) (id c) dto
         (clock w (reads w)) s = Some (Some u, s') ∧
       outcome (CategoryService.updateCategory (id c) dto) w = Returned (Some r) ∧
       category_at (objects s') u = Some r ∧
       snapshot s'
       = Some (categoriesSignal
                 (after (CategoryService.updateCategory (id c) dto) w))) ∧
  (∀ accepted id0 dto now,
     id0 ∉ map id (categoriesSignal w) →
     ReferenceStore.updateCategory accepted id0 dto now s = Some (None, s)).
Proof.
  intros Hsnap. repeat apply conj.
  - intros id0. by apply deleteCategory_simulated.
  - by apply clearAllCategories_simulated.
  - intros dto. by apply createCategory_simulated.
  - intros dto before c rest Hw Hfirst. by apply updateCategory_simulated.
  - intros accepted id0 dto now. by apply updateCategory_simulated_absent.
Qed.
End SimulationTheorem.

(** [reference_store_simulates_the_service] on the sample instance and a
    world holding the same two categories: "a" is deleted. *)
Lemma reference_store_simulates_the_service_witness :
  let s := References.sample_instance in
  let w := sample_world empty_storage ticking_clock [cat_a; cat_b] in
  ∃ s', ReferenceStore.deleteCategory true "a" s = Some (true, s') ∧
        References.snapshot s' = Some [cat_b].
Proof.
  intros s w.
  destruct (reference_store_simulates_the_service (H:=sample_json) w s)
    as (Hdelete & _); [reflexivity|].
  destruct (Hdelete "a") as (b & s' & Hrun & Hout & Hsnap).
  injection Hout as <-. exists s'. split; [exact Hrun|exact Hsnap].
Defined.
